(** * ome-zarr-models (v04): image, image-label and well metadata

    A shallow embedding of
    - [ome_zarr_models/v04/image.py]      ([_check_arrays_compatible],
      [ImageAttrs], [Image.from_zarr], [Image.labels]),
    - [ome_zarr_models/v04/image_label.py] ([_duplicates], [_parse_colors],
      [_parse_imagelabel], [ImageLabel]),
    - [ome_zarr_models/v04/well_types.py]  ([WellMeta.get_acquisition_paths]),
    together with the small part of the Python runtime, of [zarr] and of
    [pydantic_zarr] these functions call.

    Python exceptions are modelled by the [result] type, dictionaries by
    [gmap], sets by [gset], accesses to the store and emitted warnings by a
    log that is threaded next to the result. *)

From Stdlib Require Import Ascii.
From stdpp Require Import gmap strings list fin_maps pretty.

(** ** The Python runtime *)
Module Py.

(** The exceptions raised by the modelled code.  [ValidationError] is
    pydantic's: it carries one message per failed field or validator. *)
Inductive exn : Type :=
| ValueError (msg : string)
| ValidationError (errors : list string)
| TypeError (msg : string)
| AttributeError (msg : string)
| IndexError (msg : string)
| RecursionError
| ArrayNotFoundError (path : string)
| GroupNotFoundError (path : string)
| ContainsGroupError (path : string)
| ContainsArrayError (path : string).

Inductive result (A : Type) : Type :=
| Ok (a : A)
| Raise (e : exn).
Global Arguments Ok {A} a.
Global Arguments Raise {A} e.

Global Instance result_ret : MRet result := λ A a, Ok a.
Global Instance result_bind : MBind result := λ A B f m,
  match m with
  | Ok a => f a
  | Raise e => Raise e
  end.

Definition is_ok {A} (r : result A) : bool :=
  match r with Ok _ => true | Raise _ => false end.

(** [for x in l: f(x)], where [f] may raise. *)
Fixpoint for_each {A} (f : A → result unit) (l : list A) : result unit :=
  match l with
  | [] => Ok ()
  | x :: l => _ ← f x; for_each f l
  end.

(** [[f(x) for x in l]], where [f] may raise. *)
Fixpoint map_each {A B} (f : A → result B) (l : list A) : result (list B) :=
  match l with
  | [] => Ok []
  | x :: l => y ← f x; ys ← map_each f l; Ok (y :: ys)
  end.

(** A computation that also appends to a log of type [L]: the store
    accesses of [from_zarr], the warnings of the image-label validators.
    What was logged before an exception is kept. *)
Definition logged (L A : Type) : Type := (list L * result A)%type.

Global Instance logged_ret {L} : MRet (logged L) := λ A a, ([], Ok a).
Global Instance logged_bind {L} : MBind (logged L) := λ A B f m,
  match m with
  | (l, Ok a) => let '(l', r) := f a in (l ++ l', r)
  | (l, Raise e) => (l, Raise e)
  end.

Definition tell {L} (x : L) : logged L unit := ([x], Ok ()).
Definition raise {L A} (e : exn) : logged L A := ([], Raise e).
Definition lift {L A} (r : result A) : logged L A := ([], r).

(** [try: m  except ...: h e]; the handler [h] answers [None] for the
    exceptions no [except] clause catches. *)
Definition try_except {L A} (m : logged L A)
    (h : exn → option (logged L A)) : logged L A :=
  match m with
  | (l, Ok a) => (l, Ok a)
  | (l, Raise e) =>
      match h e with
      | Some k => let '(l', r) := k in (l ++ l', r)
      | None => (l, Raise e)
      end
  end.

(** A [for] loop that updates a local variable of type [S], in the
    monad [M] of its body. *)
Fixpoint for_fold {M} `{MBind M, MRet M} {S A} (f : S → A → M S)
    (l : list A) (s : S) : M S :=
  match l with
  | [] => mret s
  | x :: l => s' ← f s x; for_fold f l s'
  end.

(** [s.lstrip(c)] for a single character [c]. *)
Fixpoint lstrip (c : ascii) (s : string) : string :=
  match s with
  | String a s' => if decide (a = c) then lstrip c s' else s
  | EmptyString => EmptyString
  end.

(** [s.split(sep)] for a single character [sep]: never empty. *)
Fixpoint split (sep : ascii) (s : string) : list string :=
  match s with
  | EmptyString => [EmptyString]
  | String a s' =>
      if decide (a = sep) then EmptyString :: split sep s'
      else match split sep s' with
           | x :: xs => String a x :: xs
           | [] => [String a EmptyString]
           end
  end.

(** [sep.join(l)]. *)
Fixpoint join (sep : string) (l : list string) : string :=
  match l with
  | [] => ""
  | [x] => x
  | x :: l => x +:+ sep +:+ join sep l
  end.

(** [s.endswith(c)] for a single character [c]. *)
Fixpoint endswith (c : ascii) (s : string) : bool :=
  match s with
  | EmptyString => false
  | String a EmptyString => bool_decide (a = c)
  | String _ s' => endswith c s'
  end.

(** [repr] of a list of integers, as an f-string prints it: [[1, 2, 3]]. *)
Definition repr_list (l : list Z) : string :=
  "[" +:+ join ", " (pretty <$> l) +:+ "]".

(** [repr] of a tuple of integers: [()], [(1,)], [(1, 2)]. *)
Definition repr_tuple (l : list Z) : string :=
  match l with
  | [x] => "(" +:+ pretty x +:+ ",)"
  | _ => "(" +:+ join ", " (pretty <$> l) +:+ ")"
  end.

(** A key of a keyword-argument or JSON mapping: left out, or given. *)
Inductive field (A : Type) : Type :=
| Missing
| Given (a : A).
Global Arguments Missing {A}.
Global Arguments Given {A} a.

End Py.
Import Py.

(** ** [ome_zarr_models.v04.multiscales] *)
Module multiscales.

(** Modelled from the spec: [ome_zarr_models/v04/multiscales.py] is not
    among the sources.  An axis has a name, a type and an optional unit. *)
Record Axis : Type := {
  axis_name : string;
  axis_type : option string;
  axis_unit : option string;
}.

(** Modelled from the spec: [ome_zarr_models/v04/multiscales.py] is not
    among the sources.  A dataset is one resolution level: the path of its
    array, relative to the image group.  Its transform chain is not read by
    the functions modelled here and is left out. *)
Record Dataset : Type := {
  path : string;
}.

(** Modelled from the spec: [ome_zarr_models/v04/multiscales.py] is not
    among the sources.  A multiscale owns its axes and its datasets. *)
Record Multiscale : Type := {
  axes : list Axis;
  datasets : list Dataset;
}.

End multiscales.
Import multiscales.

(** ** [pydantic_zarr.v2] *)
Module pydantic_zarr.

(** The attributes of a zarr node, as read from the store.  Of the
    attribute mapping only the keys the modelled code reads are kept:
    [multiscales] (its entries already parsed by
    [ome_zarr_models.v04.multiscales]) and [labels]. *)
Record Attrs : Type := {
  attr_multiscales : option (list Multiscale);
  attr_labels : option (list string);
}.

Definition no_attrs : Attrs :=
  {| attr_multiscales := None; attr_labels := None |}.

Record ArrayMeta : Type := {
  shape : list nat;
  chunks : list nat;
  dtype : string;
}.

(** [ArraySpec | GroupSpec]: the tree of a zarr hierarchy. *)
Inductive Spec : Type :=
| ArraySpec (arr : ArrayMeta)
| GroupSpec (attributes : Attrs) (members : option (gmap string Spec)).

(** [to_flat(node, root_path)]: the node and all its descendants, keyed by
    their path.  A group is stored with [members=None].  Member names hold
    no [/] (pydantic_zarr refuses them), so the children's flat trees have
    disjoint keys and the order of the [result.update] calls is
    irrelevant. *)
Fixpoint to_flat (node : Spec) (root_path : string) : gmap string Spec :=
  match node with
  | ArraySpec arr => {[ root_path := ArraySpec arr ]}
  | GroupSpec attrs members =>
      let result :=
        match members with
        | None => ∅
        | Some ms =>
            map_fold (λ name value acc,
                        to_flat value (root_path +:+ "/" +:+ name) ∪ acc)
                     ∅ ms
        end in
      <[ root_path := GroupSpec attrs None ]> result
  end.

(** Where the loop of [from_flat_group] puts one entry of the flat tree. *)
Inductive placed : Type :=
| MemberArray (name : string) (value : Spec)
| SubMember (name : string) (subkey : string) (value : Spec).

Definition place (entry : string * Spec) : result placed :=
  let '(key, value) := entry in
  match split "/" key with
  | root :: subparent_name :: rest =>
      if decide (root = "") then
        match rest, value with
        | [], ArraySpec _ => Ok (MemberArray subparent_name value)
        | [], GroupSpec _ _ => Ok (SubMember subparent_name "" value)
        | _, _ =>
            Ok (SubMember subparent_name (join "/" ("" :: rest)) value)
        end
      else Raise (ValueError ("Invalid path: " +:+ key))
  | [root] =>
      if decide (root = "") then Raise (IndexError "list index out of range")
      else Raise (ValueError ("Invalid path: " +:+ key))
  | [] => Raise (IndexError "list index out of range")
  end.

Definition member_arrays_of (ps : list placed) : gmap string Spec :=
  foldr (λ p acc, match p with
                  | MemberArray n v => <[n := v]> acc
                  | SubMember _ _ _ => acc
                  end) ∅ ps.

Definition submembers_of (ps : list placed)
    : gmap string (gmap string Spec) :=
  foldr (λ p acc, match p with
                  | MemberArray _ _ => acc
                  | SubMember n k v =>
                      <[n := <[k := v]> (default ∅ (acc !! n))]> acc
                  end) ∅ ps.

(** [from_flat_group(data)].  The Python function recurses on the flat
    trees of the member groups; [fuel] bounds the depth of that recursion
    and [RecursionError] is what is raised when it runs out
    ([from_flat] below starts with enough of it). *)
Fixpoint from_flat_group (fuel : nat) (data : gmap string Spec)
    : result Spec :=
  match fuel with
  | 0 => Raise RecursionError
  | S fuel =>
      match data !! "" with
      | Some (ArraySpec _) =>
          Raise (ValueError
                   "Got an ArraySpec as the root node. This is invalid.")
      | root_node =>
          let root_attributes :=
            match root_node with
            | Some (GroupSpec attrs _) => attrs
            | _ => no_attrs
            end in
          ps ← map_each place (map_to_list (delete "" data));
          member_groups ←
            map_each (λ '(subparent_name, submemb),
                        g ← from_flat_group fuel submemb;
                        Ok (subparent_name, g))
                     (map_to_list (submembers_of ps));
          Ok (GroupSpec root_attributes
                (Some (member_arrays_of ps ∪ list_to_map member_groups)))
      end
  end.

Definition max_key_length (data : gmap string Spec) : nat :=
  map_fold (λ key _ n, String.length key `max` n) 0 data.

(** [GroupSpec.from_flat(data)]. *)
Definition from_flat (data : gmap string Spec) : result Spec :=
  if decide (map_Exists (λ key _, endswith "/" key = true) data) then
    Raise (ValueError "Invalid keys found in data. Keys may not end with /")
  else
    match map_to_list data with
    | [(EmptyString, ArraySpec arr)] => Ok (ArraySpec arr)
    | _ => from_flat_group (S (max_key_length data)) data
    end.

End pydantic_zarr.
Import pydantic_zarr.

(** ** [zarr] *)
Module zarr.

(** A store, seen through the one operation the modelled code needs:
    what lies at a path, nothing ([None]), an array or a group.  The node
    is given as the spec [ArraySpec.from_zarr] and [GroupSpec.from_zarr]
    read from it. *)
Definition Store : Type := string → option Spec.

Definition store_of_map (m : gmap string Spec) : Store := λ p, m !! p.

(** A [zarr.Group] handle: its store, its path in the store, and the
    attributes it carries. *)
Record Group : Type := {
  store : Store;
  group_path : string;
  attrs : Attrs;
}.

(** The accesses to the store that are logged. *)
Inductive access : Type :=
| OpenArray (path : string)
| OpenGroup (path : string).

(** [zarr.open_array(store=store, path=path, mode="r")]. *)
Definition open_array (store : Store) (path : string)
    : logged access ArrayMeta :=
  _ ← tell (OpenArray path);
  match store path with
  | Some (ArraySpec arr) => mret arr
  | Some (GroupSpec _ _) => raise (ContainsGroupError path)
  | None => raise (ArrayNotFoundError path)
  end.

(** [zarr.open_group(store=store, path=path, mode="r")], followed by
    [GroupSpec.from_zarr] on the group that was opened. *)
Definition open_group (store : Store) (path : string)
    : logged access Spec :=
  _ ← tell (OpenGroup path);
  match store path with
  | Some (GroupSpec a ms) => mret (GroupSpec a ms)
  | Some (ArraySpec _) => raise (ContainsArrayError path)
  | None => raise (GroupNotFoundError path)
  end.

End zarr.
Import zarr.

(** ** [ome_zarr_models.v04.labels] *)
Module labels.

Record LabelsAttrs : Type := {
  labels : list string;
}.

Record Labels : Type := {
  attributes : LabelsAttrs;
  members : option (gmap string Spec);
}.

(** [Labels(attributes=..., members=...)]: the attributes are validated
    as [LabelsAttrs], whose [labels] field is required. *)
Definition Labels_new (a : Attrs) (ms : option (gmap string Spec))
    : result Labels :=
  match attr_labels a with
  | Some l => Ok {| attributes := {| labels := l |}; members := ms |}
  | None => Raise (ValidationError ["attributes.labels: Field required"])
  end.

End labels.

(** ** [ome_zarr_models.v04.image] *)
Module image.

(** [ImageAttrs]; the optional [omero] field is not read by the functions
    modelled here and is left out. *)
Record ImageAttrs : Type := {
  multiscales : list Multiscale;
}.

(** [ImageAttrs.model_validate]: [multiscales] is required and has
    [min_length=1]. *)
Definition model_validate (a : Attrs) : result ImageAttrs :=
  match attr_multiscales a with
  | None => Raise (ValidationError ["multiscales: Field required"])
  | Some [] =>
      Raise (ValidationError
               ["multiscales: List should have at least 1 item"])
  | Some ms => Ok {| multiscales := ms |}
  end.

Definition model_dump (a : ImageAttrs) : Attrs :=
  {| attr_multiscales := Some (multiscales a); attr_labels := None |}.

Record Image : Type := {
  attributes : ImageAttrs;
  members : option (gmap string Spec);
}.

(** [data.to_flat()]. *)
Definition Image_to_flat (data : Image) : gmap string Spec :=
  to_flat (GroupSpec (model_dump (attributes data)) (members data)) "".

Definition msg_is_group (dataset_path : string) : string :=
  "The node at " +:+ dataset_path +:+ " is a group, not an array.".

Definition msg_rank_mismatch (multiscale_ndim : nat)
    (dataset_path : string) (arr_ndim : nat) : string :=
  "The multiscale metadata has " +:+ pretty multiscale_ndim +:+ " axes "
  +:+ "which does not match the dimensionality of the array "
  +:+ "found in this group at " +:+ dataset_path
  +:+ " (" +:+ pretty arr_ndim +:+ "). "
  +:+ "The number of axes must match the array dimensionality.".

Definition msg_not_exist (dataset_path : string) : string :=
  "The multiscale metadata references an array that does not "
  +:+ "exist in this group: " +:+ dataset_path.

(** The body of the inner loop of [_check_arrays_compatible]. *)
Definition check_dataset (flat_self : gmap string Spec)
    (multiscale_ndim : nat) (dataset : Dataset) : result unit :=
  match flat_self !! ("/" +:+ lstrip "/" (path dataset)) with
  | None => Raise (ValueError (msg_not_exist (path dataset)))
  | Some (GroupSpec _ _) => Raise (ValueError (msg_is_group (path dataset)))
  | Some (ArraySpec maybe_arr) =>
      let arr_ndim := length (shape maybe_arr) in
      if decide (arr_ndim ≠ multiscale_ndim) then
        Raise (ValueError
                 (msg_rank_mismatch multiscale_ndim (path dataset) arr_ndim))
      else Ok ()
  end.

(** The body of the outer loop of [_check_arrays_compatible]. *)
Definition check_multiscale (flat_self : gmap string Spec)
    (multiscale : Multiscale) : result unit :=
  let multiscale_ndim := length (axes multiscale) in
  for_each (check_dataset flat_self multiscale_ndim) (datasets multiscale).

Definition _check_arrays_compatible (data : Image) : result Image :=
  let multimeta := multiscales (attributes data) in
  let flat_self := Image_to_flat data in
  _ ← for_each (check_multiscale flat_self) multimeta;
  Ok data.

(** [Image(attributes=..., members=...)]: the attributes are validated as
    [ImageAttrs], then the model validator runs; pydantic reports the
    [ValueError] of a validator as a [ValidationError]. *)
Definition Image_new (a : Attrs) (ms : option (gmap string Spec))
    : result Image :=
  attributes ← model_validate a;
  match _check_arrays_compatible
          {| attributes := attributes; members := ms |} with
  | Raise (ValueError msg) => Raise (ValidationError [msg])
  | r => r
  end.

Definition msg_no_array (array_path : string) : string :=
  "Expected to find an array at " +:+ array_path +:+ ", "
  +:+ "but no array was found there.".

Definition msg_group_found (array_path : string) : string :=
  "Expected to find an array at " +:+ array_path +:+ ", "
  +:+ "but a group was found there instead.".

(** The body of the inner loop of [from_zarr]. *)
Definition resolve_dataset (group : Group)
    (members_tree_flat : gmap string Spec) (dataset : Dataset)
    : logged access (gmap string Spec) :=
  let array_path := group_path group +:+ "/" +:+ path dataset in
  array_spec ←
    try_except
      (array ← open_array (store group) array_path;
       mret (ArraySpec array))
      (λ e, match e with
            | ArrayNotFoundError _ =>
                Some (raise (ValueError (msg_no_array array_path)))
            | ContainsGroupError _ =>
                Some (raise (ValueError (msg_group_found array_path)))
            | _ => None
            end);
  mret (<["/" +:+ path dataset := array_spec]> members_tree_flat).

(** The body of the outer loop of [from_zarr]. *)
Definition resolve_multiscale (group : Group)
    (members_tree_flat : gmap string Spec) (multiscale : Multiscale)
    : logged access (gmap string Spec) :=
  for_fold (resolve_dataset group) (datasets multiscale) members_tree_flat.

(** The [try] block of [from_zarr] that looks for the labels group. *)
Definition resolve_labels (group : Group)
    (members_tree_flat : gmap string Spec)
    : logged access (gmap string Spec) :=
  try_except
    (labels_group ← open_group (store group) "labels";
     mret (<["/labels" := labels_group]> members_tree_flat))
    (λ e, match e with
          | GroupNotFoundError _ => Some (mret members_tree_flat)
          | _ => None
          end).

(** The flat member tree [from_zarr] has built when it calls
    [GroupSpec.from_flat]. *)
Definition members_tree_flat (group : Group) (multi_meta : ImageAttrs)
    : logged access (gmap string Spec) :=
  flat ← for_fold (resolve_multiscale group) (multiscales multi_meta) ∅;
  resolve_labels group flat.

(** [Image.from_zarr(group)]. *)
Definition from_zarr (group : Group) : logged access Image :=
  let guess_attributes := attrs group in
  multi_meta ← lift (model_validate guess_attributes);
  flat ← members_tree_flat group multi_meta;
  members_normalized ← lift (from_flat flat);
  match members_normalized with
  | GroupSpec _ ms => lift (Image_new guess_attributes ms)
  | ArraySpec _ =>
      raise (AttributeError "'ArraySpec' object has no attribute 'members'")
  end.

(** The [labels] property of [Image]. *)
Definition Image_labels (self : Image) : result (option labels.Labels) :=
  match members self with
  | None => Raise (TypeError "argument of type 'NoneType' is not iterable")
  | Some ms =>
      match ms !! "labels" with
      | None => Ok None
      | Some (GroupSpec a sub) =>
          l ← labels.Labels_new a sub; Ok (Some l)
      | Some (ArraySpec _) =>
          Raise (AttributeError
                   "'ArraySpec' object has no attribute 'members'")
      end
  end.

End image.


(** ** [ome_zarr_models.v04.image_label] *)
Module image_label.

Definition Uint8 : Type := Z.
Definition RGBA : Type := (Uint8 * Uint8 * Uint8 * Uint8)%type.

(** [collections.Counter(values)]: the number of occurrences of each
    element, the keys in the order of their first occurrence. *)
Fixpoint counter_add {A} `{EqDecision A} (k : A) (counts : list (A * nat))
    : list (A * nat) :=
  match counts with
  | [] => [(k, 1)]
  | (k', n) :: counts =>
      if decide (k' = k) then (k', S n) :: counts
      else (k', n) :: counter_add k counts
  end.

Definition Counter {A} `{EqDecision A} (values : list A) : list (A * nat) :=
  foldl (λ counts k, counter_add k counts) [] values.

Definition _duplicates {A} `{EqDecision A} (values : list A)
    : list (A * nat) :=
  let counts := Counter values in
  filter (λ kv, 1 < kv.2) counts.

Module Color.
Record t : Type := {
  label_value : Z;
  rgba : option RGBA;
}.
End Color.

Record Source : Type := {
  image : option string;
}.

Module Property.
Record t : Type := {
  label_value : Z;
}.
End Property.

Definition msg_colors_none : string :=
  "The field `colors` is `None`.`colors` should be a list of "
  +:+ "label descriptors.".

Definition msg_duplicated (keys : list Z) : string :=
  "Duplicated label-value: " +:+ repr_tuple keys +:+ "."
  +:+ "label-values must be unique across elements of `colors`.".

(** [_parse_colors]; the log holds the warnings given to
    [warnings.warn]. *)
Definition _parse_colors (colors : option (list Color.t))
    : logged string (option (list Color.t)) :=
  match colors with
  | None =>
      _ ← tell msg_colors_none;
      mret colors
  | Some cs =>
      let dupes := _duplicates (Color.label_value <$> cs) in
      if decide (0 < length dupes) then
        raise (ValueError (msg_duplicated (dupes.*1)))
      else mret colors
  end.

Record ImageLabel : Type := {
  colors : option (list Color.t);
  properties : option (list Property.t);
  source : option Source;
  version : option string;
}.

Definition msg_inconsistent (prop_label_value color_label_value : list Z)
    : string :=
  "Inconsistent `label_value` attributes in `colors` and `properties`."
  +:+ "The `properties` attributes have `label_values` "
  +:+ repr_list prop_label_value +:+ ", "
  +:+ "The `colors` attributes have `label_values` "
  +:+ repr_list color_label_value +:+ ", ".

Definition _parse_imagelabel (model : ImageLabel) : result ImageLabel :=
  match colors model, properties model with
  | Some model_colors, Some model_properties =>
      let prop_label_value := Property.label_value <$> model_properties in
      let color_label_value := Color.label_value <$> model_colors in
      let prop_label_value_set : gset Z := list_to_set prop_label_value in
      let color_label_value_set : gset Z := list_to_set color_label_value in
      if decide (color_label_value_set ≠ prop_label_value_set) then
        Raise (ValueError
                 (msg_inconsistent prop_label_value color_label_value))
      else Ok model
  | _, _ => Ok model
  end.

Definition _parse_model (self : ImageLabel) : result ImageLabel :=
  _parse_imagelabel self.

(** The part of the pydantic configuration inherited from
    [ome_zarr_models.base.Base], which is not among the sources, that
    decides whether the validators of a field run on its default value. *)
Record Config : Type := {
  validate_default : bool;
}.

(** The keyword arguments given to [ImageLabel(...)]; the elements of
    [colors] and [properties] and the [source] are taken as already
    parsed. *)
Record ImageLabelInput : Type := {
  input_colors : field (option (list Color.t));
  input_properties : field (option (list Property.t));
  input_source : field (option Source);
  input_version : field (option string);
}.

(** The field [colors], with default [None] and the validator
    [AfterValidator(_parse_colors)]. *)
Definition validate_colors (config : Config)
    (input : field (option (list Color.t)))
    : logged string (option (list Color.t)) :=
  match input with
  | Given c => _parse_colors c
  | Missing =>
      if validate_default config then _parse_colors None else mret None
  end.

(** A field with default [None] and no validator. *)
Definition validate_optional {A} (input : field (option A)) : option A :=
  match input with
  | Given x => x
  | Missing => None
  end.

(** The field [version: Literal["0.4"] | None], which has no default. *)
Definition validate_version (input : field (option string))
    : result (option string) :=
  match input with
  | Missing => Raise (ValueError "Field required")
  | Given None => Ok None
  | Given (Some v) =>
      if decide (v = "0.4") then Ok (Some v)
      else Raise (ValueError "Input should be '0.4'")
  end.

(** The entry of a [ValidationError] for the field [loc]. *)
Definition field_errors {A} (loc : string) (r : result A) : list string :=
  match r with
  | Ok _ => []
  | Raise (ValueError msg) => [loc +:+ ": " +:+ msg]
  | Raise _ => [loc]
  end.

(** [ImageLabel(...)]: every field is validated and the errors are
    collected; when there is none the model validator [_parse_model]
    runs.  The log holds the warnings. *)
Definition ImageLabel_new (config : Config) (input : ImageLabelInput)
    : logged string ImageLabel :=
  let '(warnings, colors) := validate_colors config (input_colors input) in
  let version := validate_version (input_version input) in
  match colors, version with
  | Ok c, Ok v =>
      match _parse_model
              {| colors := c;
                 properties := validate_optional (input_properties input);
                 source := validate_optional (input_source input);
                 version := v |} with
      | Raise (ValueError msg) => (warnings, Raise (ValidationError [msg]))
      | r => (warnings, r)
      end
  | _, _ =>
      (warnings,
       Raise (ValidationError
                (field_errors "colors" colors
                 ++ field_errors "version" version)))
  end.

End image_label.

(** ** [ome_zarr_models.v04.well_types] *)
Module well_types.

Record WellImage : Type := {
  path : string;
  acquisition : option Z;
}.

Record WellMeta : Type := {
  images : list WellImage;
  version : option string;
}.

Definition msg_no_acquisition : string :=
  "Cannot get acquisition paths for Zarr files without "
  +:+ "'acquisition' metadata at the well level".

(** The body of the loop of [get_acquisition_paths];
    [acquisition_dict] is a [defaultdict(list)]. *)
Definition add_image (acquisition_dict : gmap Z (list string))
    (image : WellImage) : result (gmap Z (list string)) :=
  match acquisition image with
  | None => Raise (ValueError msg_no_acquisition)
  | Some a =>
      Ok (<[a := default [] (acquisition_dict !! a) ++ [path image]]>
            acquisition_dict)
  end.

Definition get_acquisition_paths (self : WellMeta)
    : result (gmap Z (list string)) :=
  for_fold add_image (images self) ∅.

End well_types.

(** * Properties *)

(** ** Strings *)
Section strings.

Lemma string_app_assoc (s1 s2 s3 : string) :
  (s1 +:+ s2) +:+ s3 = s1 +:+ s2 +:+ s3.
Proof.
  induction s1 as [|a s1 IH]; [done|].
  unfold String.app in *. simpl. by rewrite IH.
Qed.

Lemma string_app_nil_r (s : string) : s +:+ "" = s.
Proof.
  induction s as [|a s IH]; [done|].
  unfold String.app in *. simpl. by rewrite IH.
Qed.

Lemma string_app_cons (a : ascii) (s1 s2 : string) :
  String a s1 +:+ s2 = String a (s1 +:+ s2).
Proof. done. Qed.

Lemma string_app_nil_l (s : string) : "" +:+ s = s.
Proof. done. Qed.

(** Every element of [l] is a part of [sep.join(l)]. *)
Lemma join_contains (sep : string) (l : list string) (x : string) :
  x ∈ l → ∃ s1 s2, join sep l = s1 +:+ x +:+ s2.
Proof.
  induction l as [|y l IH]; [by intros ?%elem_of_nil|].
  intros [->|Hin]%elem_of_cons.
  - destruct l as [|z l].
    + exists "", "". cbn [join]. by rewrite string_app_nil_r.
    + by exists "", (sep +:+ join sep (z :: l)).
  - destruct l as [|z l]; [by apply elem_of_nil in Hin|].
    destruct (IH Hin) as (s1 & s2 & Heq).
    exists (y +:+ sep +:+ s1), s2.
    change (join sep (y :: z :: l)) with (y +:+ sep +:+ join sep (z :: l)).
    by rewrite Heq, !string_app_assoc.
Qed.

(** The decimal form of every element of a tuple is a part of the [repr]
    of the tuple. *)
Lemma repr_tuple_contains (l : list Z) (k : Z) :
  k ∈ l → ∃ s1 s2, repr_tuple l = s1 +:+ pretty k +:+ s2.
Proof.
  intros Hin.
  destruct l as [|x [|y l]].
  - by apply elem_of_nil in Hin.
  - apply list_elem_of_singleton in Hin as ->. by exists "(", ",)".
  - destruct (join_contains ", " (pretty <$> x :: y :: l) (pretty k))
      as (s1 & s2 & Heq); [by apply list_elem_of_fmap_2|].
    exists ("(" +:+ s1), (s2 +:+ ")").
    unfold repr_tuple. by rewrite Heq, !string_app_assoc.
Qed.

Lemma list_ascii_of_string_app (s1 s2 : string) :
  String.list_ascii_of_string (s1 +:+ s2)
  = String.list_ascii_of_string s1 ++ String.list_ascii_of_string s2.
Proof.
  induction s1 as [|a s1 IH]; [done|].
  rewrite string_app_cons. simpl. by rewrite IH.
Qed.

(** Two strings that end in texts [t1] and [t2] of which neither is a
    suffix of the other are different; [suffixes_differ] is checked on the
    reversed texts. *)
Fixpoint differ (l1 l2 : list ascii) : bool :=
  match l1, l2 with
  | a1 :: l1, a2 :: l2 => if decide (a1 = a2) then differ l1 l2 else true
  | _, _ => false
  end.

Lemma differ_app (l1 l2 k1 k2 : list ascii) :
  differ l1 l2 = true → l1 ++ k1 ≠ l2 ++ k2.
Proof.
  revert l2. induction l1 as [|a1 l1 IH]; intros [|a2 l2]; simpl; try done.
  destruct (decide (a1 = a2)) as [->|Hne]; [|congruence].
  intros Hd [= Heq]. by eapply IH.
Qed.

Lemma suffixes_differ (s1 s2 t1 t2 : string) :
  differ (reverse (String.list_ascii_of_string t1))
         (reverse (String.list_ascii_of_string t2)) = true →
  s1 +:+ t1 ≠ s2 +:+ t2.
Proof.
  intros Hd Heq. apply (f_equal String.list_ascii_of_string) in Heq.
  rewrite !list_ascii_of_string_app in Heq.
  apply (f_equal reverse) in Heq. rewrite !reverse_app in Heq.
  by eapply differ_app.
Qed.

End strings.

(** ** The loops *)
Section loops.
Context {A S : Type}.

Lemma for_each_ok (f : A → result unit) (l : list A) :
  for_each f l = Ok () ↔ Forall (λ x, f x = Ok ()) l.
Proof.
  induction l as [|x l IH]; simpl.
  - split; [constructor | done].
  - rewrite Forall_cons, <- IH. unfold mbind, result_bind.
    destruct (f x) as [[]|e]; naive_solver.
Qed.

(** A [for] loop raises what its first failing iteration raises. *)
Lemma for_each_first_failure (f : A → result unit) pre x post e :
  Forall (λ y, f y = Ok ()) pre →
  f x = Raise e →
  for_each f (pre ++ x :: post) = Raise e.
Proof.
  intros Hpre Hx. induction Hpre as [|y pre Hy _ IH]; simpl.
  - by rewrite Hx.
  - by rewrite Hy.
Qed.

Lemma for_each_raise (f : A → result unit) (l : list A) e :
  for_each f l = Raise e → ∃ x, x ∈ l ∧ f x = Raise e.
Proof.
  induction l as [|x l IH]; simpl; [done|].
  unfold mbind, result_bind. destruct (f x) as [[]|e'] eqn:Hx.
  - intros [y [??]]%IH. exists y. split; [by right | done].
  - intros [= ->]. exists x. split; [by left | done].
Qed.

End loops.

(** ** [WellMeta.get_acquisition_paths] *)
Section well_types_facts.
Import well_types.

(** The paths of the images of acquisition [a], in the order of the
    images. *)
Definition paths_of_acquisition (a : Z) (imgs : list WellImage)
    : list string :=
  path <$> filter (λ i, acquisition i = Some a) imgs.

(** What the dictionary holds at [a] once the images [imgs] were added to
    a dictionary that held [before] there. *)
Definition grouped (before : option (list string)) (a : Z)
    (imgs : list WellImage) : option (list string) :=
  match before, paths_of_acquisition a imgs with
  | None, [] => None
  | o, l => Some (default [] o ++ l)
  end.

Lemma add_image_loop (imgs : list WellImage) (acc : gmap Z (list string)) :
  match for_fold add_image imgs acc with
  | Ok m =>
      Forall (λ i, is_Some (acquisition i)) imgs
      ∧ ∀ a, m !! a = grouped (acc !! a) a imgs
  | Raise e =>
      e = ValueError msg_no_acquisition
      ∧ Exists (λ i, acquisition i = None) imgs
  end.
Proof.
  revert acc. induction imgs as [|i imgs IH]; intros acc; simpl.
  - split; [constructor|]. intros a. unfold grouped. simpl.
    destruct (acc !! a); simpl; [by rewrite app_nil_r | done].
  - unfold mbind, result_bind, add_image.
    destruct (acquisition i) as [a0|] eqn:Hi.
    + specialize (IH (<[a0:=default [] (acc !! a0) ++ [path i]]> acc)).
      destruct (for_fold _ _ _) as [m|e].
      * destruct IH as [Hall Hm]. split; [constructor; eauto|].
        intros a. rewrite Hm. unfold grouped, paths_of_acquisition.
        rewrite filter_cons. destruct (decide (a0 = a)) as [->|Hne].
        -- rewrite lookup_insert_eq. rewrite decide_True by done. simpl.
           destruct (acc !! a); simpl; by rewrite <- ?app_assoc.
        -- rewrite lookup_insert_ne by done.
           rewrite decide_False by congruence. done.
      * destruct IH as [-> Hex]. split; [done | by right].
    + split; [done | by left].
Qed.

(** C6: [get_acquisition_paths] answers the mapping from every
    acquisition id to the paths of the images that carry it, in their
    order, exactly when every image has an acquisition id; it raises the
    [ValueError] as soon as one image has none.  The images
    [("0",1), ("1",1), ("2",2)] give [{1: ["0","1"], 2: ["2"]}]. *)
Theorem get_acquisition_paths_groups :
  (∀ self : WellMeta,
     match get_acquisition_paths self with
     | Ok m =>
         Forall (λ i, is_Some (acquisition i)) (images self)
         ∧ ∀ a, m !! a =
                match paths_of_acquisition a (images self) with
                | [] => None
                | l => Some l
                end
     | Raise e =>
         e = ValueError msg_no_acquisition
         ∧ Exists (λ i, acquisition i = None) (images self)
     end)
  ∧ get_acquisition_paths
      {| images := [ {| path := "0"; acquisition := Some 1%Z |};
                     {| path := "1"; acquisition := Some 1%Z |};
                     {| path := "2"; acquisition := Some 2%Z |} ];
         version := Some "0.4" |}
    = Ok (<[1%Z := ["0"; "1"]]> (<[2%Z := ["2"]]> ∅)).
Proof.
  split; [|by vm_compute].
  intros self. unfold get_acquisition_paths.
  pose proof (add_image_loop (images self) ∅) as H.
  destruct (for_fold _ _ _) as [m|e]; [|done].
  destruct H as [Hall Hm]. split; [done|]. intros a. rewrite Hm.
  rewrite lookup_empty. unfold grouped.
  by destruct (paths_of_acquisition a (images self)).
Qed.

End well_types_facts.

(** ** [_duplicates] and [_parse_colors] *)
Section duplicates_facts.
Import image_label.
Context {A : Type} `{EqDecision A}.

(** The number of occurrences of [k] in [l]. *)
Definition occurrences (k : A) (l : list A) : nat :=
  length (filter (λ x, x = k) l).

(** The count a [Counter] holds for [k]: [0] for a key it does not have. *)
Fixpoint count_of (k : A) (counts : list (A * nat)) : nat :=
  match counts with
  | [] => 0
  | (k', n) :: counts => if decide (k' = k) then n else count_of k counts
  end.

Lemma occurrences_snoc k l x :
  occurrences k (l ++ [x]) = occurrences k l + (if decide (x = k) then 1 else 0).
Proof.
  unfold occurrences. rewrite filter_app, length_app. f_equal.
  rewrite filter_cons, filter_nil. by destruct (decide (x = k)).
Qed.

Lemma occurrences_pos k l : 0 < occurrences k l ↔ k ∈ l.
Proof.
  unfold occurrences. induction l as [|x l IH]; simpl.
  - rewrite elem_of_nil. simpl. lia.
  - rewrite filter_cons, elem_of_cons. destruct (decide (x = k)); simpl.
    + split; [auto | lia].
    + rewrite IH. naive_solver.
Qed.

Lemma NoDup_occurrences l : NoDup l ↔ ∀ k, occurrences k l ≤ 1.
Proof.
  induction l as [|x l IH].
  - split; [intros _ k; unfold occurrences; simpl; lia | constructor].
  - rewrite NoDup_cons, IH. unfold occurrences. split.
    + intros [Hx Hl] k. rewrite filter_cons.
      destruct (decide (x = k)) as [->|]; simpl; [|apply Hl].
      apply (not_iff_compat (occurrences_pos k l)) in Hx.
      unfold occurrences in Hx. lia.
    + intros H. split.
      * intros Hx%occurrences_pos. specialize (H x).
        rewrite filter_cons, decide_True in H by done. simpl in H.
        unfold occurrences in Hx. lia.
      * intros k. specialize (H k). rewrite filter_cons in H.
        destruct (decide (x = k)); simpl in H; lia.
Qed.

Lemma counter_add_keys k (counts : list (A * nat)) :
  (counter_add k counts).*1 =
  if decide (k ∈ counts.*1) then counts.*1 else counts.*1 ++ [k].
Proof.
  induction counts as [|[k' n] counts IH].
  - destruct (decide _) as [Hin|]; [by apply elem_of_nil in Hin | done].
  - cbn [counter_add fmap list_fmap fst].
    destruct (decide (k' = k)) as [->|Hne]; cbn [fmap list_fmap fst].
    + clear IH. destruct (decide (k ∈ k :: counts.*1)) as [|Hnin]; [done|].
      destruct Hnin. by left.
    + change (list_fmap _ _ fst ?l) with (l.*1). rewrite IH.
      destruct (decide (k ∈ counts.*1)) as [Hin|Hnin];
        destruct (decide (k ∈ k' :: counts.*1)) as [Hin'|Hnin']; try done.
      * destruct Hnin'. by right.
      * apply elem_of_cons in Hin' as [->|]; done.
Qed.

Lemma count_of_counter_add k k' (counts : list (A * nat)) :
  count_of k' (counter_add k counts) =
  if decide (k = k') then S (count_of k' counts) else count_of k' counts.
Proof.
  induction counts as [|[k0 n] counts IH]; simpl.
  - destruct (decide (k = k')); done.
  - destruct (decide (k0 = k)) as [->|Hne]; simpl.
    + destruct (decide (k = k')); done.
    + destruct (decide (k0 = k')) as [->|]; [|done].
      by rewrite decide_False by done.
Qed.

Lemma elem_of_counts k n (counts : list (A * nat)) :
  NoDup counts.*1 →
  (k, n) ∈ counts ↔ k ∈ counts.*1 ∧ count_of k counts = n.
Proof.
  induction counts as [|[k' m] counts IH]; simpl; intros Hnd.
  - rewrite !elem_of_nil. naive_solver.
  - apply NoDup_cons in Hnd as [Hk' Hnd].
    rewrite !elem_of_cons, (IH Hnd).
    destruct (decide (k' = k)) as [->|Hne].
    + split; [intros [[= <-]|[? _]]; [auto | done] | intros [_ ->]; auto].
    + naive_solver.
Qed.

(** [Counter] counts: its keys are the elements of the input, once each,
    and the count of a key is its number of occurrences. *)
Lemma Counter_counts (values : list A) :
  NoDup (Counter values).*1
  ∧ (∀ k, k ∈ (Counter values).*1 ↔ k ∈ values)
  ∧ (∀ k, count_of k (Counter values) = occurrences k values).
Proof.
  unfold Counter.
  induction values as [|x values (Hnd & Hkeys & Hcount)] using rev_ind.
  - simpl. split; [constructor|]. split; [|done].
    intros k. by rewrite !elem_of_nil.
  - rewrite foldl_app. simpl. rewrite counter_add_keys.
    split; [|split].
    + destruct (decide _) as [|Hnin]; [done|].
      apply NoDup_app. split; [done|]. split; [|apply NoDup_singleton].
      intros k Hk ->%list_elem_of_singleton. done.
    + intros k. rewrite elem_of_app, list_elem_of_singleton, <- Hkeys.
      destruct (decide _) as [Hin|]; [|by rewrite elem_of_app, list_elem_of_singleton].
      naive_solver.
    + intros k. rewrite count_of_counter_add, occurrences_snoc, Hcount.
      destruct (decide (x = k)); lia.
Qed.

(** The keys of [_duplicates values] are the elements that occur more than
    once, once each. *)
Lemma duplicates_keys (values : list A) :
  NoDup (_duplicates values).*1
  ∧ ∀ k, k ∈ (_duplicates values).*1 ↔ 1 < occurrences k values.
Proof.
  destruct (Counter_counts values) as (Hnd & Hkeys & Hcount).
  unfold _duplicates. split.
  - apply (sublist_NoDup _ _ Hnd), fmap_sublist, sublist_filter.
  - intros k. rewrite list_elem_of_fmap. split.
    + intros ([k' n] & -> & [Hn Hin]%list_elem_of_filter). simpl in *.
      apply elem_of_counts in Hin as [_ <-]; [|done]. by rewrite <- Hcount.
    + intros Hk. exists (k, occurrences k values). split; [done|].
      apply list_elem_of_filter. split; [done|].
      apply elem_of_counts; [done|]. split; [|done].
      apply Hkeys, occurrences_pos. lia.
Qed.

Lemma duplicates_nil (values : list A) :
  _duplicates values = [] ↔ NoDup values.
Proof.
  destruct (duplicates_keys values) as [_ Hkeys].
  rewrite NoDup_occurrences. split.
  - intros Hnil k. destruct (decide (1 < occurrences k values)) as [Hk|]; [|lia].
    apply Hkeys in Hk. rewrite Hnil in Hk. by apply elem_of_nil in Hk.
  - intros Hle. destruct (_duplicates values) as [|[k n] dupes]; [done|].
    specialize (Hle k). assert (1 < occurrences k values); [|lia].
    apply Hkeys. simpl. by left.
Qed.

End duplicates_facts.

(** ** [ImageLabel] *)
Section image_label_facts.
Import image_label.

Definition color (label_value : Z) : Color.t :=
  {| Color.label_value := label_value; Color.rgba := None |}.

Definition property (label_value : Z) : Property.t :=
  {| Property.label_value := label_value |}.

(** C8: on a present [colors], [_parse_colors] raises exactly when two
    elements carry the same label value.  The message of the [ValueError]
    is the text [Duplicated label-value: ] followed by the tuple of the
    label values that occur more than once, each of them once and each of
    them readable in the message, and by the sentence that label values
    must be unique.  When the label values are pairwise distinct the
    colors pass unchanged and without a warning.  [ImageLabel(...)] reports
    the error under the field [colors].  Colors with the label values
    [1, 2, 1, 3, 2] are refused with the duplicates [(1, 2)]. *)
Theorem parse_colors_duplicated_label_values :
  (∀ cs : list Color.t,
     let label_values := Color.label_value <$> cs in
     match _parse_colors (Some cs) with
     | (warnings, Ok colors) =>
         warnings = [] ∧ colors = Some cs ∧ NoDup label_values
     | (warnings, Raise e) =>
         warnings = [] ∧ ¬ NoDup label_values
         ∧ ∃ keys,
             e = ValueError (msg_duplicated keys)
             ∧ msg_duplicated keys
               = "Duplicated label-value: " +:+ repr_tuple keys
                 +:+ ".label-values must be unique across elements of `colors`."
             ∧ NoDup keys
             ∧ (∀ k, k ∈ keys ↔ 1 < occurrences k label_values)
             ∧ (∀ k, 1 < occurrences k label_values →
                  ∃ s1 s2, msg_duplicated keys = s1 +:+ pretty k +:+ s2)
             ∧ ∀ config props src ver, ∃ errors,
                 ImageLabel_new config
                   {| input_colors := Given (Some cs);
                      input_properties := props;
                      input_source := src; input_version := ver |}
                 = ([], Raise (ValidationError
                                 (("colors: " +:+ msg_duplicated keys)
                                  :: errors)))
     end)
  ∧ _parse_colors (Some (color <$> [1; 2; 1; 3; 2]%Z))
    = ([], Raise (ValueError
         "Duplicated label-value: (1, 2).label-values must be unique across elements of `colors`."))
  ∧ ∀ config,
      ImageLabel_new config
        {| input_colors := Given (Some (color <$> [7; 7]%Z));
           input_properties := Missing; input_source := Missing;
           input_version := Given (Some "0.4") |}
      = ([], Raise (ValidationError
           ["colors: Duplicated label-value: (7,).label-values must be unique across elements of `colors`."])).
Proof.
  split; [|split; [by vm_compute | by intros [[]]; vm_compute]].
  intros cs label_values. unfold _parse_colors. fold label_values.
  destruct (duplicates_keys label_values) as [Hnd Hkeys].
  pose proof (duplicates_nil label_values) as Hnil.
  destruct (decide _) as [Hpos|Hzero]; simpl.
  - split; [done|]. split.
    + intros Hno%Hnil. rewrite Hno in Hpos. simpl in Hpos. lia.
    + exists (_duplicates label_values).*1. repeat split; try done.
      * by apply Hkeys.
      * by apply Hkeys.
      * intros k Hk%Hkeys.
        destruct (repr_tuple_contains _ _ Hk) as (s1 & s2 & Heq).
        exists ("Duplicated label-value: " +:+ s1),
               (s2 +:+ ".label-values must be unique across elements of `colors`.").
        unfold msg_duplicated. by rewrite Heq, !string_app_assoc.
      * intros config props src ver. unfold ImageLabel_new, validate_colors.
        cbn [input_colors input_properties input_source input_version].
        unfold _parse_colors. fold label_values.
        rewrite decide_True by done. simpl.
        destruct (validate_version ver) as [v|[]]; simpl; eauto.
  - repeat split; try done. apply Hnil.
    destruct (_duplicates label_values); [done | simpl in Hzero; lia].
Qed.

(** The label values [1, 2, 1, 3, 2] have the duplicates [(1, 2)]. *)
Example parse_colors_duplicates_example :
  _parse_colors (Some (color <$> [1; 2; 1; 3; 2]%Z))
  = ([], Raise (ValueError
       "Duplicated label-value: (1, 2).label-values must be unique across elements of `colors`.")).
Proof. by vm_compute. Qed.

Lemma list_to_set_eq_iff (l1 l2 : list Z) :
  list_to_set (C := gset Z) l1 = list_to_set l2 ↔ ∀ z, z ∈ l1 ↔ z ∈ l2.
Proof.
  rewrite set_eq. by setoid_rewrite elem_of_list_to_set.
Qed.

(** C5: when both [colors] and [properties] are present the model
    validator raises exactly when the label values of the colors and those
    of the properties are not the same set, and the message holds both
    lists of label values; when one of the two is absent the model passes.
    Through [ImageLabel(...)], with colors of distinct label values and a
    valid version, the construction fails exactly in that case. *)
Theorem parse_imagelabel_label_values :
  (∀ cs ps src ver,
     let model := {| colors := Some cs; properties := Some ps;
                     source := src; version := ver |} in
     let color_values := Color.label_value <$> cs in
     let prop_values := Property.label_value <$> ps in
     match _parse_model model with
     | Ok m => m = model ∧ ∀ z, z ∈ color_values ↔ z ∈ prop_values
     | Raise e =>
         ¬ (∀ z, z ∈ color_values ↔ z ∈ prop_values)
         ∧ e = ValueError (msg_inconsistent prop_values color_values)
         ∧ ∃ s1 s2 s3,
             msg_inconsistent prop_values color_values
             = s1 +:+ repr_list prop_values +:+ s2
               +:+ repr_list color_values +:+ s3
     end)
  ∧ (∀ model, colors model = None ∨ properties model = None →
       _parse_model model = Ok model)
  ∧ (∀ config cs ps src ver,
       NoDup (Color.label_value <$> cs) →
       is_ok (validate_version ver) = true →
       is_ok (ImageLabel_new config
                {| input_colors := Given (Some cs);
                   input_properties := Given (Some ps);
                   input_source := src; input_version := ver |}).2 = true
       ↔ ∀ z, z ∈ Color.label_value <$> cs ↔ z ∈ Property.label_value <$> ps).
Proof.
  split; [|split].
  - intros cs ps src ver model color_values prop_values.
    unfold _parse_model, _parse_imagelabel. simpl.
    fold color_values prop_values.
    destruct (decide _) as [Hne|Heq].
    + split; [by rewrite <- list_to_set_eq_iff|]. split; [done|].
      unfold msg_inconsistent.
      by exists ("Inconsistent `label_value` attributes in `colors` and `properties`."
                 +:+ "The `properties` attributes have `label_values` "),
                (", " +:+ "The `colors` attributes have `label_values` "),
                ", ".
    + split; [done|]. apply list_to_set_eq_iff.
      by destruct (decide (list_to_set color_values
                           = (list_to_set prop_values : gset Z))).
  - intros model H. unfold _parse_model, _parse_imagelabel.
    destruct H as [-> | ->]; [done | by destruct (colors model)].
  - intros config cs ps src ver Hnd Hver.
    rewrite <- list_to_set_eq_iff.
    unfold ImageLabel_new, validate_colors.
    cbn [input_colors input_properties input_source input_version].
    unfold _parse_colors.
    apply duplicates_nil in Hnd. rewrite Hnd. simpl.
    destruct (validate_version ver) as [v|]; [|done]. simpl.
    unfold _parse_model, _parse_imagelabel. simpl.
    destruct (decide _) as [Hne|Heq]; simpl; [done|].
    split; [intros _|done].
    by destruct (decide (list_to_set (Color.label_value <$> cs)
                         = (list_to_set (Property.label_value <$> ps)
                            : gset Z))).
Qed.

(** Colors [{1,2,3}] against properties [{1,2}] are refused, colors
    [{1,2}] against properties [{1,2}] are accepted. *)
Example parse_imagelabel_examples :
  _parse_model {| colors := Some (color <$> [1; 2; 3]%Z);
                  properties := Some (property <$> [1; 2]%Z);
                  source := None; version := Some "0.4" |}
  = Raise (ValueError
      "Inconsistent `label_value` attributes in `colors` and `properties`.The `properties` attributes have `label_values` [1, 2], The `colors` attributes have `label_values` [1, 2, 3], ")
  ∧ is_ok (_parse_model {| colors := Some (color <$> [1; 2]%Z);
                           properties := Some (property <$> [2; 1]%Z);
                           source := None; version := Some "0.4" |}) = true.
Proof. by vm_compute. Qed.



(** C10: the field [version] is required.  An [ImageLabel] built without
    the key [version] is refused with a [ValidationError] that names the
    field, whatever the other fields are; a version given as [None] or as
    ["0.4"] is accepted, any other string is refused. *)
Theorem image_label_version_required :
  (∀ config cs props src, ∃ warnings errors,
     ImageLabel_new config
       {| input_colors := cs; input_properties := props;
          input_source := src; input_version := Missing |}
     = (warnings, Raise (ValidationError errors))
     ∧ "version: Field required" ∈ errors)
  ∧ validate_version (Given None) = Ok None
  ∧ validate_version (Given (Some "0.4")) = Ok (Some "0.4")
  ∧ (∀ v, v ≠ "0.4" → is_ok (validate_version (Given (Some v))) = false)
  ∧ ∀ config,
      is_ok (ImageLabel_new config
               {| input_colors := Given (Some []); input_properties := Missing;
                  input_source := Missing; input_version := Given None |}).2
      = true
      ∧ is_ok (ImageLabel_new config
               {| input_colors := Given (Some []); input_properties := Missing;
                  input_source := Missing;
                  input_version := Given (Some "0.4") |}).2
      = true.
Proof.
  split; [|split; [done|split; [done|split]]].
  - intros config cs props src. unfold ImageLabel_new. simpl.
    destruct (validate_colors config cs) as [warnings [c|e]]; simpl.
    + exists warnings, ["version: Field required"]. split; [done | by left].
    + eexists warnings, _. split; [done|].
      apply elem_of_app. right. by left.
  - intros v Hv. unfold validate_version. by rewrite decide_False.
  - intros config. split; by vm_compute.
Qed.

End image_label_facts.

(** ** [_check_arrays_compatible] *)
Section check_arrays_compatible_facts.
Import image.

(** The invariant of an [Image]: every dataset of every multiscale names,
    in the flattened tree of the image, an array whose rank is the number of
    axes of the multiscale. *)
Definition arrays_compatible (data : Image) : Prop :=
  ∀ m d, m ∈ multiscales (attributes data) → d ∈ datasets m →
    ∃ arr, Image_to_flat data !! ("/" +:+ lstrip "/" (path d))
           = Some (ArraySpec arr)
           ∧ length (shape arr) = length (axes m).

(** The checks the two loops of [_check_arrays_compatible] make, in their
    order: the number of axes and the dataset. *)
Definition checks (ms : list Multiscale) : list (nat * Dataset) :=
  m ← ms; (λ d, (length (axes m), d)) <$> datasets m.

Lemma check_dataset_ok flat n d :
  check_dataset flat n d = Ok () ↔
  ∃ arr, flat !! ("/" +:+ lstrip "/" (path d)) = Some (ArraySpec arr)
         ∧ length (shape arr) = n.
Proof.
  unfold check_dataset.
  destruct (flat !! _) as [[arr|a ms]|]; [|naive_solver..].
  destruct (decide (length (shape arr) ≠ n)) as [Hne|Heq].
  - split; [done|]. intros (arr' & [= <-] & ?). done.
  - split; [|done]. intros _. exists arr. split; [done|].
    by destruct (decide (length (shape arr) = n)).
Qed.

Lemma check_dataset_raise flat n d e :
  check_dataset flat n d = Raise e → ∃ msg, e = ValueError msg.
Proof.
  unfold check_dataset. destruct (flat !! _) as [[arr|a ms]|].
  - destruct (decide _); [|done]. intros [= <-]. eauto.
  - intros [= <-]. eauto.
  - intros [= <-]. eauto.
Qed.

Lemma for_each_app {A} (f : A → result unit) (l1 l2 : list A) :
  for_each f (l1 ++ l2) = (_ ← for_each f l1; for_each f l2).
Proof.
  induction l1 as [|x l1 IH]; simpl; [done|].
  unfold mbind, result_bind in *. destruct (f x) as [[]|]; [apply IH | done].
Qed.

Lemma for_each_fmap {A B} (f : B → result unit) (g : A → B) (l : list A) :
  for_each f (g <$> l) = for_each (f ∘ g) l.
Proof.
  induction l as [|x l IH]; [done|].
  rewrite fmap_cons. cbn [for_each]. by rewrite IH.
Qed.

(** The nested loops are one loop over [checks]. *)
Lemma check_multiscales_checks flat (ms : list Multiscale) :
  for_each (check_multiscale flat) ms
  = for_each (λ c, check_dataset flat c.1 c.2) (checks ms).
Proof.
  unfold checks. induction ms as [|m ms IH]; simpl; [done|].
  rewrite for_each_app, for_each_fmap, IH. done.
Qed.

Lemma elem_of_checks (ms : list Multiscale) n d :
  (n, d) ∈ checks ms ↔ ∃ m, m ∈ ms ∧ d ∈ datasets m ∧ n = length (axes m).
Proof.
  unfold checks. rewrite list_elem_of_bind. split.
  - intros (m & (d' & [= -> ->] & Hd)%list_elem_of_fmap & Hm). eauto.
  - intros (m & Hm & Hd & ->). exists m. split; [|done].
    apply list_elem_of_fmap. eauto.
Qed.

Lemma check_arrays_compatible_ok (data : Image) :
  _check_arrays_compatible data = Ok data ↔ arrays_compatible data.
Proof.
  unfold _check_arrays_compatible, arrays_compatible.
  rewrite check_multiscales_checks.
  destruct (for_each _ _) as [[]|e] eqn:Hloop; simpl.
  - split; [intros _|done]. intros m d Hm Hd.
    apply for_each_ok in Hloop. rewrite Forall_forall in Hloop.
    apply (check_dataset_ok _ (length (axes m)) d).
    apply (Hloop (length (axes m), d)), elem_of_checks. eauto.
  - split; [done|]. intros Hinv.
    apply for_each_raise in Hloop as ([n d] & Hin & Hraise).
    apply elem_of_checks in Hin as (m & Hm & Hd & ->). simpl in Hraise.
    destruct (Hinv m d Hm Hd) as (arr & Hflat & Hrank).
    assert (check_dataset (Image_to_flat data) (length (axes m)) d = Ok ())
      as Hok by (apply check_dataset_ok; eauto).
    congruence.
Qed.

Lemma check_arrays_compatible_raise (data : Image) e :
  _check_arrays_compatible data = Raise e → ∃ msg, e = ValueError msg.
Proof.
  unfold _check_arrays_compatible. rewrite check_multiscales_checks.
  destruct (for_each _ _) as [[]|e'] eqn:Hloop; simpl; [done|].
  intros [= <-]. apply for_each_raise in Hloop as (c & _ & Hraise).
  by eapply check_dataset_raise.
Qed.

Lemma Image_new_ok a ms img :
  Image_new a ms = Ok img ↔
  ∃ attrs, model_validate a = Ok attrs
           ∧ img = {| attributes := attrs; members := ms |}
           ∧ arrays_compatible img.
Proof.
  unfold Image_new. destruct (model_validate a) as [attrs|e]; simpl.
  - set (data := {| attributes := attrs; members := ms |}).
    pose proof (check_arrays_compatible_ok data) as Hok.
    destruct (_check_arrays_compatible data) as [data'|e] eqn:Hcheck.
    + assert (data' = data) as ->.
      { unfold _check_arrays_compatible in Hcheck.
        destruct (for_each _ _); simpl in Hcheck; congruence. }
      split.
      * intros [= <-]. exists attrs. by rewrite <- Hok.
      * intros (attrs' & [= <-] & -> & _). done.
    + split.
      * by destruct e.
      * intros (attrs' & [= <-] & -> & Hinv). apply Hok in Hinv. done.
  - split; [done|]. intros (? & ? & _). done.
Qed.

End check_arrays_compatible_facts.

(** ** [Image] *)
Section image_facts.
Import image.

(** C2: an [Image] is constructed exactly when its attributes validate and
    the invariant [arrays_compatible] holds: every dataset of every
    multiscale names, in the flattened member tree, an array (not a group,
    not nothing) whose rank is the number of axes of its multiscale.  The
    check is part of the construction, so it also holds of every image
    [from_zarr] returns. *)
Theorem image_arrays_compatible :
  (∀ a ms,
     match Image_new a ms with
     | Ok img =>
         model_validate a = Ok (attributes img)
         ∧ members img = ms
         ∧ arrays_compatible img
     | Raise e =>
         ∀ attrs, model_validate a = Ok attrs →
           ¬ arrays_compatible {| attributes := attrs; members := ms |}
     end)
  ∧ (∀ group log img, from_zarr group = (log, Ok img) →
       arrays_compatible img).
Proof.
  split.
  - intros a ms. destruct (Image_new a ms) as [img|e] eqn:Hnew.
    + apply Image_new_ok in Hnew as (attrs & Hattrs & -> & Hinv). done.
    + intros attrs Hattrs Hinv.
      assert (Image_new a ms = Ok {| attributes := attrs; members := ms |})
        as Hok by (apply Image_new_ok; eauto).
      congruence.
  - intros group log img. unfold from_zarr, lift.
    destruct (model_validate (attrs group)) as [multi_meta|]; simpl; [|done].
    destruct (members_tree_flat group multi_meta) as [l1 [flat|]]; simpl;
      [|done].
    destruct (from_flat flat) as [[arr|a ms]|]; simpl; [done| |done].
    destruct (Image_new (attrs group) ms) as [img'|] eqn:Hnew; [|done].
    intros [= _ <-]. by apply Image_new_ok in Hnew as (? & _ & _ & ?).
Qed.

(** An image with two levels of rank 2 under two axes is constructed. *)
Lemma image_arrays_compatible_example :
  let yx := [ {| axis_name := "y"; axis_type := Some "space";
                 axis_unit := None |};
              {| axis_name := "x"; axis_type := Some "space";
                 axis_unit := None |} ] in
  let arr := ArraySpec {| shape := [4; 4]; chunks := [2; 2]; dtype := "|u1" |} in
  is_ok (Image_new
           {| attr_multiscales :=
                Some [ {| axes := yx;
                          datasets := [ {| path := "s0" |};
                                        {| path := "s1" |} ] |} ];
              attr_labels := None |}
           (Some (<["s0" := arr]> (<["s1" := arr]> ∅)))) = true.
Proof. by vm_compute. Qed.

Lemma msg_rank_mismatch_not_exist n p r p' :
  msg_rank_mismatch n p r ≠ msg_not_exist p'.
Proof.
  unfold msg_rank_mismatch, msg_not_exist. cbv [String.append]. congruence.
Qed.

Lemma msg_rank_mismatch_is_group n p r p' :
  msg_rank_mismatch n p r ≠ msg_is_group p'.
Proof.
  unfold msg_rank_mismatch, msg_is_group. cbv [String.append]. congruence.
Qed.


(** C3: when a dataset names an array whose rank is not the number of axes
    of its multiscale, the construction of the image fails with a
    [ValidationError]; when no earlier check fails, its message is the
    rank-mismatch message, which holds the number of axes, the dataset
    path and the rank of the array, and is never the message of a missing
    array or of a group found at the path. *)
Theorem image_rank_mismatch a attrs ms m d arr :
  model_validate a = Ok attrs →
  m ∈ multiscales attrs →
  d ∈ datasets m →
  Image_to_flat {| attributes := attrs; members := ms |}
    !! ("/" +:+ lstrip "/" (path d)) = Some (ArraySpec arr) →
  length (shape arr) ≠ length (axes m) →
  let msg :=
    msg_rank_mismatch (length (axes m)) (path d) (length (shape arr)) in
  (∃ errors, Image_new a ms = Raise (ValidationError errors))
  ∧ (∀ pre post,
       checks (multiscales attrs) = pre ++ (length (axes m), d) :: post →
       Forall (λ c, check_dataset
                      (Image_to_flat {| attributes := attrs; members := ms |})
                      c.1 c.2 = Ok ()) pre →
       Image_new a ms = Raise (ValidationError [msg]))
  ∧ (∃ s1 s2 s3 s4,
       msg = s1 +:+ pretty (length (axes m)) +:+ s2 +:+ path d +:+ s3
             +:+ pretty (length (shape arr)) +:+ s4)
  ∧ (∀ p, msg ≠ msg_not_exist p)
  ∧ (∀ p, msg ≠ msg_is_group p).
Proof.
  intros Hattrs Hm Hd Hflat Hrank msg.
  set (data := {| attributes := attrs; members := ms |}) in *.
  assert (check_dataset (Image_to_flat data) (length (axes m)) d
          = Raise (ValueError msg)) as Hcheck.
  { unfold check_dataset. rewrite Hflat. by rewrite decide_True. }
  split; [|split; [|split; [|split]]].
  - unfold Image_new. rewrite Hattrs. simpl. fold data.
    destruct (_check_arrays_compatible data) as [data'|e] eqn:Hc.
    + assert (arrays_compatible data) as Hinv.
      { apply check_arrays_compatible_ok. rewrite Hc. f_equal.
        unfold _check_arrays_compatible in Hc.
        destruct (for_each _ _); simpl in Hc; congruence. }
      destruct (Hinv m d Hm Hd) as (arr' & Hflat' & Hrank'). congruence.
    + apply check_arrays_compatible_raise in Hc as [msg' ->]. eauto.
  - intros pre post Hchecks Hpre. unfold Image_new. rewrite Hattrs. simpl.
    fold data. unfold _check_arrays_compatible.
    rewrite check_multiscales_checks. simpl. rewrite Hchecks.
    by rewrite (for_each_first_failure _ pre _ post (ValueError msg)).
  - unfold msg, msg_rank_mismatch.
    by exists "The multiscale metadata has ",
              (" axes "
               +:+ "which does not match the dimensionality of the array "
               +:+ "found in this group at "),
              " (",
              ("). "
               +:+ "The number of axes must match the array dimensionality.").
  - intros p. apply msg_rank_mismatch_not_exist.
  - intros p. apply msg_rank_mismatch_is_group.
Qed.

(** An array of rank 3 under two axes: the construction fails with the
    rank-mismatch message. *)
Lemma image_rank_mismatch_witness :
  let yx := [ {| axis_name := "y"; axis_type := Some "space";
                 axis_unit := None |};
              {| axis_name := "x"; axis_type := Some "space";
                 axis_unit := None |} ] in
  let m := {| axes := yx; datasets := [ {| path := "s0" |} ] |} in
  let a := {| attr_multiscales := Some [m]; attr_labels := None |} in
  let arr := {| shape := [1; 4; 4]; chunks := [1; 2; 2]; dtype := "|u1" |} in
  Image_new a (Some {[ "s0" := ArraySpec arr ]})
  = Raise (ValidationError
      ["The multiscale metadata has 2 axes which does not match the dimensionality of the array found in this group at s0 (3). The number of axes must match the array dimensionality."]).
Proof.
  intros yx m a arr.
  refine (proj1 (proj2 (image_rank_mismatch a {| multiscales := [m] |}
                   (Some {[ "s0" := ArraySpec arr ]}) m {| path := "s0" |} arr
                   _ _ _ _ _)) [] [] _ _).
  - reflexivity.
  - by left.
  - by left.
  - by vm_compute.
  - simpl. lia.
  - reflexivity.
  - constructor.
Defined.

End image_facts.

(** ** [GroupSpec.from_flat] *)
Section from_flat_facts.

Lemma split_nonempty sep s : split sep s ≠ [].
Proof.
  destruct s as [|a s]; simpl; [done|].
  destruct (decide (a = sep)); [done|]. by destruct (split sep s).
Qed.

Lemma join_cons_cons sep x y l :
  join sep (x :: y :: l) = x +:+ sep +:+ join sep (y :: l).
Proof. done. Qed.

Lemma join_split s : join "/" (split "/" s) = s.
Proof.
  induction s as [|a s IH]; [done|]. cbn [split].
  pose proof (split_nonempty "/" s) as Hs.
  destruct (decide (a = "/"%char)) as [->|Hne].
  - destruct (split "/" s) as [|x l]; [done|].
    rewrite join_cons_cons, IH. done.
  - destruct (split "/" s) as [|x [|y l]]; [done|..].
    + cbn [join] in *. by rewrite IH.
    + rewrite join_cons_cons in *. rewrite string_app_cons. by rewrite IH.
Qed.

Lemma map_each_ok_elem {A B} (f : A → result B) l ys x :
  map_each f l = Ok ys → x ∈ l → ∃ y, f x = Ok y ∧ y ∈ ys.
Proof.
  revert ys. induction l as [|x' l IH]; intros ys; simpl.
  - intros _ Hx. by apply elem_of_nil in Hx.
  - unfold mbind, result_bind.
    destruct (f x') as [y'|] eqn:Hx'; [|done].
    destruct (map_each f l) as [ys'|]; [|done].
    intros [= <-] [->|Hin]%elem_of_cons.
    + exists y'. split; [done | by left].
    + destruct (IH ys' eq_refl Hin) as (y & ? & ?).
      exists y. split; [done | by right].
Qed.

Lemma map_each_ok_elem_inv {A B} (f : A → result B) l ys y :
  map_each f l = Ok ys → y ∈ ys → ∃ x, x ∈ l ∧ f x = Ok y.
Proof.
  revert ys. induction l as [|x' l IH]; intros ys; simpl.
  - intros [= <-] Hy. by apply elem_of_nil in Hy.
  - unfold mbind, result_bind.
    destruct (f x') as [y'|] eqn:Hx'; [|done].
    destruct (map_each f l) as [ys'|]; [|done].
    intros [= <-] [->|Hin]%elem_of_cons.
    + exists x'. split; [by left | done].
    + destruct (IH ys' eq_refl Hin) as (x & ? & ?).
      exists x. split; [by right | done].
Qed.

Lemma map_each_keys {K A B} (f : A → result B) (l : list (K * A)) ys :
  map_each (λ '(k, x), y ← f x; Ok (k, y)) l = Ok ys → ys.*1 = l.*1.
Proof.
  revert ys. induction l as [|[k x] l IH]; intros ys; simpl.
  - by intros [= <-].
  - unfold mbind, result_bind. destruct (f x) as [y|]; [|done].
    destruct (map_each _ l) as [ys'|]; [|done].
    intros [= <-]. simpl. f_equal. by apply IH.
Qed.

(** The entries [place] sends to the root of a member group, and to the
    member arrays, come from the keys with one component. *)
Lemma place_submember_root key v n v' :
  place (key, v) = Ok (SubMember n "" v') →
  key = "/" +:+ n ∧ v' = v ∧ ∃ a ms, v = GroupSpec a ms.
Proof.
  unfold place. pose proof (join_split key) as Hkey.
  destruct (split "/" key) as [|root [|subparent_name rest]]; [done| |].
  - by destruct (decide (root = "")).
  - destruct (decide (root = "")) as [->|]; [|done].
    destruct rest as [|r rest].
    + destruct v as [arr|a ms]; [done|]. intros [= <-]. eauto.
    + destruct v; intros [= <- Hj]; by rewrite join_cons_cons in Hj.
Qed.

Lemma place_member_array key v n v' :
  place (key, v) = Ok (MemberArray n v') →
  key = "/" +:+ n ∧ v' = v ∧ ∃ arr, v = ArraySpec arr.
Proof.
  unfold place. pose proof (join_split key) as Hkey.
  destruct (split "/" key) as [|root [|subparent_name rest]]; [done| |].
  - by destruct (decide (root = "")).
  - destruct (decide (root = "")) as [->|]; [|done].
    destruct rest as [|r rest]; destruct v as [arr|a ms]; try done.
    intros [= <-]. eauto.
Qed.

Lemma member_arrays_of_lookup ps n v :
  member_arrays_of ps !! n = Some v → MemberArray n v ∈ ps.
Proof.
  induction ps as [|[n' v'|n' k' v'] ps IH]; simpl.
  - by rewrite lookup_empty.
  - destruct (decide (n' = n)) as [->|Hne].
    + rewrite lookup_insert_eq. intros [= ->]. by left.
    + rewrite lookup_insert_ne by done. intros ?%IH. by right.
  - intros ?%IH. by right.
Qed.

Lemma submembers_of_lookup ps n k v :
  SubMember n k v ∈ ps →
  (∀ v', SubMember n k v' ∈ ps → v' = v) →
  ∃ sub, submembers_of ps !! n = Some sub ∧ sub !! k = Some v.
Proof.
  induction ps as [|[n' v'|n' k' v'] ps IH]; simpl; intros Hin Huniq.
  - by apply elem_of_nil in Hin.
  - apply elem_of_cons in Hin as [?|Hin]; [done|].
    apply IH; [done|]. intros v'' ?. apply Huniq. by right.
  - destruct (decide (n' = n)) as [->|Hne].
    + rewrite lookup_insert_eq. eexists. split; [done|].
      destruct (decide (k' = k)) as [->|Hk].
      * rewrite lookup_insert_eq. f_equal. apply Huniq. by left.
      * rewrite lookup_insert_ne by done.
        apply elem_of_cons in Hin as [?|Hin]; [congruence|].
        destruct (IH Hin) as (sub & -> & Hsub); [|done].
        intros v'' ?. apply Huniq. by right.
    + rewrite lookup_insert_ne by done.
      apply elem_of_cons in Hin as [?|Hin]; [congruence|].
      apply IH; [done|]. intros v'' ?. apply Huniq. by right.
Qed.

(** The group built from a flat tree with a group at its root carries the
    attributes of that group. *)
Lemma from_flat_group_root fuel data a ms g :
  data !! "" = Some (GroupSpec a ms) →
  from_flat_group fuel data = Ok g →
  ∃ m, g = GroupSpec a (Some m).
Proof.
  intros Hroot. destruct fuel as [|fuel]; simpl; [done|]. rewrite Hroot.
  unfold mbind, result_bind.
  destruct (map_each place _) as [ps|]; [|done].
  destruct (map_each _ _) as [member_groups|]; [|done].
  intros [= <-]. eauto.
Qed.

(** A group of the flat tree whose key has the single component [n] is
    the member [n] of the group that is built, up to its members. *)
Lemma from_flat_group_member fuel data n a ms g :
  split "/" n = [n] →
  data !! ("/" +:+ n) = Some (GroupSpec a ms) →
  from_flat_group fuel data = Ok g →
  ∃ a0 m sub, g = GroupSpec a0 (Some m)
              ∧ m !! n = Some (GroupSpec a sub).
Proof.
  intros Hn Hdata. destruct fuel as [|fuel]; simpl; [done|].
  assert (place ("/" +:+ n, GroupSpec a ms)
          = Ok (SubMember n "" (GroupSpec a ms))) as Hplace.
  { unfold place. change ("/" +:+ n) with (String "/" n). simpl.
    by rewrite Hn. }
  assert (∀ key v, (key, v) ∈ map_to_list (delete "" data) →
                   data !! key = Some v) as Hlist.
  { intros key v [_ ?]%elem_of_map_to_list%lookup_delete_Some. done. }
  destruct (data !! "") as [[arr|a0 ms0]|] eqn:Hroot; [done|..];
    unfold mbind, result_bind;
    (destruct (map_each place _) as [ps|] eqn:Hps; [|done]);
    (destruct (map_each _ (map_to_list (submembers_of ps)))
       as [member_groups|] eqn:Hgroups; [|done]);
    intros [= <-]; eexists _, _; 
    (assert (∃ sub, (member_arrays_of ps ∪ list_to_map member_groups) !! n
                    = Some (GroupSpec a sub)) as [sub Hsub];
     [|by exists sub]).
  all: assert (("/" +:+ n, GroupSpec a ms) ∈ map_to_list (delete "" data))
         as Hin by (apply elem_of_map_to_list, lookup_delete_Some; done).
  all: destruct (map_each_ok_elem _ _ _ _ Hps Hin) as (p & Hp & Hpin).
  all: rewrite Hplace in Hp; injection Hp as <-.
  all: destruct (submembers_of_lookup ps n "" (GroupSpec a ms) Hpin)
         as (submemb & Hsubs & Hsubroot).
  1,3: intros v' Hv';
       destruct (map_each_ok_elem_inv _ _ _ _ Hps Hv') as ([key v] & Hkv & Hpl);
       apply place_submember_root in Hpl as (-> & -> & _);
       apply Hlist in Hkv; congruence.
  all: assert ((n, submemb) ∈ map_to_list (submembers_of ps)) as Hin'
         by (by apply elem_of_map_to_list).
  all: destruct (map_each_ok_elem _ _ _ _ Hgroups Hin') as ([n' g'] & Hg & Hgin).
  all: unfold mbind, result_bind in Hg.
  all: destruct (from_flat_group fuel submemb) as [g''|] eqn:Hrec; [|done].
  all: injection Hg as <- <-.
  all: destruct (from_flat_group_root _ _ _ _ _ Hsubroot Hrec) as [m ->].
  all: exists (Some m).
  all: apply lookup_union_Some_raw; right; split.
  1,3: destruct (member_arrays_of ps !! n) as [v|] eqn:Harr; [|done];
       apply member_arrays_of_lookup in Harr;
       destruct (map_each_ok_elem_inv _ _ _ _ Hps Harr) as ([key v0] & Hkv & Hpl);
       apply place_member_array in Hpl as (-> & -> & arr & ->);
       apply Hlist in Hkv; congruence.
  all: apply elem_of_list_to_map_1; [|done].
  all: rewrite (map_each_keys _ _ _ Hgroups).
  all: apply NoDup_fst_map_to_list.
Qed.

Lemma from_flat_member data n a ms a0 ms0 :
  split "/" n = [n] →
  data !! ("/" +:+ n) = Some (GroupSpec a ms) →
  from_flat data = Ok (GroupSpec a0 ms0) →
  ∃ m sub, ms0 = Some m ∧ m !! n = Some (GroupSpec a sub).
Proof.
  intros Hn Hdata. unfold from_flat. destruct (decide _); [done|].
  intros Hflat.
  assert (from_flat_group (S (max_key_length data)) data
          = Ok (GroupSpec a0 ms0)) as Hgroup.
  { repeat case_match; simplify_eq; done. }
  destruct (from_flat_group_member _ _ _ _ _ _ Hn Hdata Hgroup)
    as (a0' & m & sub & [= -> ->] & Hm).
  eauto.
Qed.

Lemma string_length_app (s1 s2 : string) :
  String.length (s1 +:+ s2) = String.length s1 + String.length s2.
Proof.
  induction s1 as [|a s1 IH]; [done|].
  rewrite string_app_cons. simpl. by rewrite IH.
Qed.

Lemma map_each_raise {A B} (f : A → result B) l e :
  map_each f l = Raise e → ∃ x, x ∈ l ∧ f x = Raise e.
Proof.
  induction l as [|x l IH]; simpl; [done|].
  unfold mbind, result_bind. destruct (f x) as [y|e'] eqn:Hx.
  - destruct (map_each f l) as [ys|e'']; [done|].
    intros [= ->]. destruct (IH eq_refl) as (x' & ? & ?).
    exists x'. split; [by right | done].
  - intros [= ->]. exists x. split; [by left | done].
Qed.

Lemma place_raise entry e : place entry = Raise e → e ≠ RecursionError.
Proof.
  destruct entry as [key v]. unfold place.
  repeat case_match; naive_solver.
Qed.

(** The key under which an entry goes to a member group is shorter than
    its key in the flat tree. *)
Lemma place_subkey_length key v n k v' :
  place (key, v) = Ok (SubMember n k v') →
  String.length k < String.length key.
Proof.
  unfold place. pose proof (join_split key) as Hkey.
  destruct (split "/" key) as [|root [|subparent_name rest]]; [done| |].
  - by destruct (decide (root = "")).
  - destruct (decide (root = "")) as [->|]; [|done].
    rewrite join_cons_cons in Hkey. rewrite <- Hkey.
    rewrite !string_length_app.
    destruct rest as [|r rest].
    + destruct v; [done|]. intros [= <- <- <-]. simpl. lia.
    + assert (String.length (join "/" ("" :: r :: rest))
              < String.length ("" : string) + (String.length ("/" : string)
                + String.length (join "/" (subparent_name :: r :: rest)))).
      { rewrite !join_cons_cons, !string_length_app. simpl. lia. }
      destruct v; intros [= <- <- <-]; done.
Qed.

Lemma submembers_of_lookup_inv ps n sub k v :
  submembers_of ps !! n = Some sub → sub !! k = Some v →
  SubMember n k v ∈ ps.
Proof.
  revert sub. induction ps as [|[n' v'|n' k' v'] ps IH]; simpl; intros sub.
  - by rewrite lookup_empty.
  - intros ??. right. eauto.
  - destruct (decide (n' = n)) as [->|Hne].
    + rewrite lookup_insert_eq. intros [= <-].
      destruct (decide (k' = k)) as [->|Hk].
      * rewrite lookup_insert_eq. intros [= ->]. by left.
      * rewrite lookup_insert_ne by done. intros Hk'. right.
        destruct (submembers_of ps !! n) as [sub'|]; simpl in Hk'.
        -- by eapply IH.
        -- by rewrite lookup_empty in Hk'.
    + rewrite lookup_insert_ne by done. intros ??. right. eauto.
Qed.

Lemma submembers_of_nonempty ps n sub :
  submembers_of ps !! n = Some sub → ∃ k v, sub !! k = Some v.
Proof.
  induction ps as [|[n' v'|n' k' v'] ps IH]; simpl.
  - by rewrite lookup_empty.
  - done.
  - destruct (decide (n' = n)) as [->|Hne].
    + rewrite lookup_insert_eq. intros [= <-].
      exists k', v'. apply lookup_insert_eq.
    + by rewrite lookup_insert_ne.
Qed.

(** The recursion runs out of fuel only below a member group, whose flat
    tree is not empty and has shorter keys. *)
Lemma from_flat_group_recursion_error fuel data :
  from_flat_group (S fuel) data = Raise RecursionError →
  ∃ sub,
    from_flat_group fuel sub = Raise RecursionError
    ∧ (∃ k v, sub !! k = Some v)
    ∧ ∀ k v, sub !! k = Some v →
        ∃ key v', data !! key = Some v'
                  ∧ String.length k < String.length key.
Proof.
  cbn [from_flat_group].
  assert (∀ key v, (key, v) ∈ map_to_list (delete "" data) →
                   data !! key = Some v) as Hlist
    by (intros key v [_ ?]%elem_of_map_to_list%lookup_delete_Some; done).
  assert (∀ attrs,
    (ps ← map_each place (map_to_list (delete "" data));
     member_groups ←
       map_each (λ '(subparent_name, submemb),
                   g ← from_flat_group fuel submemb;
                   Ok (subparent_name, g))
                (map_to_list (submembers_of ps));
     Ok (GroupSpec attrs
           (Some (member_arrays_of ps ∪ list_to_map member_groups))))
    = Raise RecursionError →
    ∃ sub,
      from_flat_group fuel sub = Raise RecursionError
      ∧ (∃ k v, sub !! k = Some v)
      ∧ ∀ k v, sub !! k = Some v →
          ∃ key v', data !! key = Some v'
                    ∧ String.length k < String.length key) as Hbody.
  { intros attrs. unfold mbind, result_bind.
    destruct (map_each place _) as [ps|e] eqn:Hps.
    - destruct (map_each _ (map_to_list (submembers_of ps)))
        as [member_groups|e] eqn:Hgroups; [done|].
      intros [= ->].
      apply map_each_raise in Hgroups as ([n sub] & Hin & Hrec).
      apply elem_of_map_to_list in Hin. exists sub. split; [|split].
      + unfold mbind, result_bind in Hrec.
        destruct (from_flat_group fuel sub); [done | congruence].
      + by eapply submembers_of_nonempty.
      + intros k v Hk.
        pose proof (submembers_of_lookup_inv _ _ _ _ _ Hin Hk) as Hp.
        destruct (map_each_ok_elem_inv _ _ _ _ Hps Hp)
          as ([key v0] & Hkv & Hpl).
        exists key, v0. split; [by apply Hlist|].
        by eapply place_subkey_length.
    - intros [= ->]. apply map_each_raise in Hps as (x & _ & Hx).
      by apply place_raise in Hx. }
  destruct (data !! "") as [[arr|a0 ms0]|]; [done|..]; apply Hbody.
Qed.

(** With fuel above the length of the longest key the recursion of
    [from_flat_group] never runs out of it. *)
Lemma from_flat_group_enough_fuel fuel data :
  (∀ k v, data !! k = Some v → String.length k ≤ fuel) →
  from_flat_group (S fuel) data ≠ Raise RecursionError.
Proof.
  revert data. induction fuel as [|fuel IH]; intros data Hlen Hraise.
  - apply from_flat_group_recursion_error in Hraise
      as (sub & _ & (k & v & Hk) & Hshort).
    destruct (Hshort k v Hk) as (key & v' & Hkey%Hlen & ?). lia.
  - apply from_flat_group_recursion_error in Hraise
      as (sub & Hsub & _ & Hshort).
    revert Hsub. apply IH. intros k v Hk.
    destruct (Hshort k v Hk) as (key & v' & Hkey%Hlen & ?). lia.
Qed.

Lemma max_key_length_bound data k v :
  data !! k = Some v → String.length k ≤ max_key_length data.
Proof.
  intros Hk%elem_of_map_to_list. unfold max_key_length.
  rewrite map_fold_foldr.
  induction (map_to_list data) as [|[k' v'] l IH]; simpl.
  - by apply elem_of_nil in Hk.
  - apply elem_of_cons in Hk as [[= <- <-]|Hk]; [lia|].
    specialize (IH Hk). lia.
Qed.

(** [from_flat] gives the recursion all the fuel it needs. *)
Lemma from_flat_enough_fuel data : from_flat data ≠ Raise RecursionError.
Proof.
  unfold from_flat. destruct (decide _); [done|].
  pose proof (from_flat_group_enough_fuel (max_key_length data) data
                (max_key_length_bound data)) as Hfuel.
  repeat case_match; done.
Qed.

End from_flat_facts.

(** ** [Image.from_zarr] *)
Section from_zarr_facts.
Import image.

(** The path [from_zarr] opens for a dataset. *)
Definition array_path (group : Group) (dataset : Dataset) : string :=
  group_path group +:+ "/" +:+ path dataset.

(** The dataset resolves: the store holds an array at its path. *)
Definition resolves (group : Group) (dataset : Dataset) : Prop :=
  ∃ arr, store group (array_path group dataset) = Some (ArraySpec arr).

(** The flat tree after a dataset that resolves. *)
Definition add_resolved (group : Group) (flat : gmap string Spec)
    (dataset : Dataset) : gmap string Spec :=
  match store group (array_path group dataset) with
  | Some node => <["/" +:+ path dataset := node]> flat
  | None => flat
  end.

Lemma logged_bind_assoc {L A B C} (m : logged L A)
    (f : A → logged L B) (g : B → logged L C) :
  (m ≫= f) ≫= g = m ≫= (λ x, f x ≫= g).
Proof.
  destruct m as [l [a|e]]; simpl; [|done].
  destruct (f a) as [l' [b|e]]; simpl; [|done].
  destruct (g b) as [l'' r]. by rewrite app_assoc.
Qed.

Lemma for_fold_app {L S A} (f : S → A → logged L S) (l1 l2 : list A) s :
  for_fold f (l1 ++ l2) s = (s' ← for_fold f l1 s; for_fold f l2 s').
Proof.
  revert s. induction l1 as [|x l1 IH]; intros s; simpl.
  - destruct (for_fold f l2 s) as [l r]. done.
  - rewrite logged_bind_assoc. destruct (f s x) as [l [s'|e]]; simpl; [|done].
    rewrite IH. done.
Qed.

(** What one iteration of the inner loop does. *)
Lemma resolve_dataset_eval group flat dataset :
  resolve_dataset group flat dataset =
  ([OpenArray (array_path group dataset)],
   match store group (array_path group dataset) with
   | Some (ArraySpec arr) => Ok (<["/" +:+ path dataset := ArraySpec arr]> flat)
   | Some (GroupSpec _ _) =>
       Raise (ValueError (msg_group_found (array_path group dataset)))
   | None => Raise (ValueError (msg_no_array (array_path group dataset)))
   end).
Proof.
  unfold resolve_dataset, open_array. fold (array_path group dataset).
  by destruct (store group (array_path group dataset)) as [[arr|a ms]|].
Qed.

(** The nested loops are one loop over the datasets of all multiscales. *)
Lemma resolve_multiscales_datasets group (ms : list Multiscale) flat :
  for_fold (resolve_multiscale group) ms flat
  = for_fold (resolve_dataset group) (ms ≫= datasets) flat.
Proof.
  revert flat. induction ms as [|m ms IH]; intros flat; [done|].
  rewrite bind_cons, for_fold_app. cbn [for_fold].
  change (resolve_multiscale group flat m)
    with (for_fold (resolve_dataset group) (datasets m) flat).
  destruct (for_fold (resolve_dataset group) (datasets m) flat)
    as [l [flat'|e]]; [|done].
  unfold mbind, logged_bind. by rewrite IH.
Qed.

Lemma resolve_datasets_ok group (ds : list Dataset) flat :
  Forall (resolves group) ds →
  for_fold (resolve_dataset group) ds flat
  = (OpenArray <$> (array_path group <$> ds),
     Ok (foldl (add_resolved group) flat ds)).
Proof.
  intros Hds. revert flat.
  induction Hds as [|d ds [arr Hd] _ IH]; intros flat; simpl; [done|].
  rewrite resolve_dataset_eval, Hd. simpl.
  rewrite IH. unfold add_resolved at 3. by rewrite Hd.
Qed.

(** The loop stops at the first dataset that does not resolve. *)
Lemma resolve_datasets_first_failure group pre d post flat :
  Forall (resolves group) pre →
  ¬ resolves group d →
  for_fold (resolve_dataset group) (pre ++ d :: post) flat
  = (OpenArray <$> (array_path group <$> pre ++ [d]),
     match store group (array_path group d) with
     | Some _ => Raise (ValueError (msg_group_found (array_path group d)))
     | None => Raise (ValueError (msg_no_array (array_path group d)))
     end).
Proof.
  intros Hpre Hd. rewrite for_fold_app, (resolve_datasets_ok _ _ _ Hpre).
  simpl. rewrite resolve_dataset_eval. rewrite !fmap_app. simpl.
  destruct (store group (array_path group d)) as [[arr|a ms]|] eqn:Hs; simpl.
  - destruct Hd. by exists arr.
  - done.
  - done.
Qed.

Lemma resolve_labels_eval group flat :
  resolve_labels group flat =
  ([OpenGroup "labels"],
   match store group "labels" with
   | Some (GroupSpec a ms) => Ok (<["/labels" := GroupSpec a ms]> flat)
   | Some (ArraySpec _) => Raise (ContainsArrayError "labels")
   | None => Ok flat
   end).
Proof.
  unfold resolve_labels, open_group.
  by destruct (store group "labels") as [[arr|a ms]|].
Qed.

Lemma msg_no_array_group_found p p' : msg_no_array p ≠ msg_group_found p'.
Proof.
  unfold msg_no_array, msg_group_found.
  rewrite <- !(string_app_assoc _ p), <- !(string_app_assoc _ p').
  by apply suffixes_differ.
Qed.

(** C1: [from_zarr] opens the datasets of all multiscales in their order,
    each at the path of the group, [/], and the path of the dataset.  At
    the first dataset where the store holds no array it stops: with
    nothing at that path it raises the [ValueError] of a missing array,
    with a group there it raises the [ValueError] of a group found
    instead; both messages hold the path that was opened, and they are
    never equal. *)
Theorem from_zarr_dataset_errors group multi_meta pre d post :
  model_validate (attrs group) = Ok multi_meta →
  multiscales multi_meta ≫= datasets = pre ++ d :: post →
  Forall (resolves group) pre →
  let p := group_path group +:+ "/" +:+ path d in
  let opened :=
    OpenArray <$> ((λ d', group_path group +:+ "/" +:+ path d')
                     <$> pre ++ [d]) in
  (store group p = None →
     from_zarr group = (opened, Raise (ValueError (msg_no_array p))))
  ∧ (∀ a ms, store group p = Some (GroupSpec a ms) →
       from_zarr group = (opened, Raise (ValueError (msg_group_found p))))
  ∧ (∀ arr, store group p = Some (ArraySpec arr) →
       ∃ rest, (from_zarr group).1 = opened ++ rest)
  ∧ (∃ s1 s2, msg_no_array p = s1 +:+ p +:+ s2)
  ∧ (∃ s1 s2, msg_group_found p = s1 +:+ p +:+ s2)
  ∧ (∀ p1 p2, msg_no_array p1 ≠ msg_group_found p2).
Proof.
  intros Hattrs Hds Hpre p opened.
  assert (∀ e,
    for_fold (resolve_dataset group) (pre ++ d :: post) ∅
      = (opened, Raise e) →
    from_zarr group = (opened, Raise e)) as Hfail.
  { intros e He. unfold from_zarr, members_tree_flat. rewrite Hattrs. simpl.
    rewrite resolve_multiscales_datasets, Hds, He. done. }
  split; [|split; [|split; [|split; [|split]]]].
  - intros Hnone. apply Hfail.
    rewrite resolve_datasets_first_failure; [|done|].
    + unfold array_path. fold p. by rewrite Hnone.
    + intros [arr Harr]. unfold array_path in Harr. fold p in Harr.
      congruence.
  - intros a ms Hgroup. apply Hfail.
    rewrite resolve_datasets_first_failure; [|done|].
    + unfold array_path. fold p. by rewrite Hgroup.
    + intros [arr Harr]. unfold array_path in Harr. fold p in Harr.
      congruence.
  - intros arr Harr. unfold from_zarr, members_tree_flat.
    rewrite Hattrs. simpl. rewrite resolve_multiscales_datasets, Hds.
    replace (pre ++ d :: post) with ((pre ++ [d]) ++ post)
      by (by rewrite <- app_assoc).
    rewrite for_fold_app.
    rewrite (resolve_datasets_ok group (pre ++ [d])).
    + fold opened. simpl.
      destruct (for_fold _ post _) as [l1 [flat|e]]; simpl.
      * destruct (resolve_labels group flat) as [l2 [flat'|e]]; simpl.
        -- destruct (from_flat flat') as [[arr'|a' ms']|]; simpl;
             rewrite <- ?app_assoc; eauto.
        -- rewrite <- ?app_assoc. eauto.
      * eauto.
    + apply Forall_app. split; [done|]. constructor; [|done]. by exists arr.
  - unfold msg_no_array. eauto.
  - unfold msg_group_found. eauto.
  - apply msg_no_array_group_found.
Qed.

End from_zarr_facts.

(** ** The labels group *)
Section labels_facts.
Import image.

Lemma resolve_datasets_log group (ds : list Dataset) flat access :
  access ∈ (for_fold (resolve_dataset group) ds flat).1 →
  ∃ d, d ∈ ds ∧ access = OpenArray (array_path group d).
Proof.
  revert flat. induction ds as [|d ds IH]; intros flat; simpl.
  - intros H. by apply elem_of_nil in H.
  - rewrite resolve_dataset_eval.
    destruct (store group (array_path group d)) as [[arr|a ms]|]; simpl.
    + destruct (for_fold _ ds _) as [l r] eqn:Hrest. simpl.
      intros [->|Hin]%elem_of_cons.
      * exists d. split; [by left | done].
      * specialize (IH (<["/" +:+ path d:=ArraySpec arr]> flat)).
        rewrite Hrest in IH. destruct (IH Hin) as (d' & ? & ?).
        exists d'. split; [by right | done].
    + intros ->%list_elem_of_singleton. exists d. split; [by left | done].
    + intros ->%list_elem_of_singleton. exists d. split; [by left | done].
Qed.

(** The only group [from_zarr] ever opens is the one at the path
    [labels] of the store. *)
Lemma from_zarr_opens_labels group p :
  OpenGroup p ∈ (from_zarr group).1 → p = "labels".
Proof.
  unfold from_zarr, members_tree_flat.
  destruct (model_validate (attrs group)) as [multi_meta|]; simpl.
  - rewrite resolve_multiscales_datasets.
    pose proof (resolve_datasets_log group
                  (multiscales multi_meta ≫= datasets) ∅ (OpenGroup p)) as Hds.
    destruct (for_fold _ _ _) as [l1 [flat|e]]; simpl in *.
    + rewrite resolve_labels_eval.
      assert (∀ l2, OpenGroup p ∈ (l1 ++ [OpenGroup "labels"]) ++ l2 →
                    l2 = [] → p = "labels") as Hlog.
      { intros l2 Hin ->. rewrite app_nil_r in Hin.
        apply elem_of_app in Hin as [Hin|Hin].
        - by destruct (Hds Hin) as (? & _ & ?).
        - apply list_elem_of_singleton in Hin. congruence. }
      destruct (store group "labels") as [[arr|a ms]|]; simpl.
      * intros Hin. eapply (Hlog []); [by rewrite app_nil_r | done].
      * destruct (from_flat _) as [[arr'|a' ms']|]; simpl;
          intros Hin; by eapply Hlog.
      * destruct (from_flat _) as [[arr'|a' ms']|]; simpl;
          intros Hin; by eapply Hlog.
    + intros Hin. by destruct (Hds Hin) as (? & _ & ?).
  - intros H. by apply elem_of_nil in H.
Qed.

(** When all datasets resolve, [from_zarr] has opened each dataset at the
    path of the group, [/], and the path of the dataset, and then the
    group at the fixed path [labels]; no other group is ever opened.  The
    group the store holds at [labels] is what is put at [/labels] in the
    flat member tree, and the member [labels] of an image that is
    returned carries its attributes. *)
Lemma from_zarr_labels_lookup group multi_meta :
  model_validate (attrs group) = Ok multi_meta →
  Forall (resolves group) (multiscales multi_meta ≫= datasets) →
  (from_zarr group).1
  = (OpenArray <$> ((λ d, group_path group +:+ "/" +:+ path d)
                      <$> (multiscales multi_meta ≫= datasets)))
    ++ [OpenGroup "labels"]
  ∧ (∀ p, OpenGroup p ∈ (from_zarr group).1 → p = "labels")
  ∧ ∀ a ms, store group "labels" = Some (GroupSpec a ms) →
      (∃ flat, (members_tree_flat group multi_meta).2 = Ok flat
               ∧ flat !! "/labels" = Some (GroupSpec a ms))
      ∧ ∀ img, (from_zarr group).2 = Ok img →
          ∃ m sub, members img = Some m
                   ∧ m !! "labels" = Some (GroupSpec a sub).
Proof.
  intros Hattrs Hds. split; [|split].
  - unfold from_zarr, members_tree_flat. rewrite Hattrs. simpl.
    rewrite resolve_multiscales_datasets, (resolve_datasets_ok _ _ _ Hds).
    simpl. rewrite resolve_labels_eval.
    destruct (store group "labels") as [[arr|a ms]|]; simpl; [done|..];
      destruct (from_flat _) as [[arr'|a' ms']|]; simpl;
      by rewrite app_nil_r.
  - apply from_zarr_opens_labels.
  - intros a ms Hlabels.
    assert (members_tree_flat group multi_meta
            = ((OpenArray <$> (array_path group
                                 <$> (multiscales multi_meta ≫= datasets)))
               ++ [OpenGroup "labels"],
               Ok (<["/labels" := GroupSpec a ms]>
                     (foldl (add_resolved group) ∅
                        (multiscales multi_meta ≫= datasets))))) as Hflat.
    { unfold members_tree_flat.
      rewrite resolve_multiscales_datasets, (resolve_datasets_ok _ _ _ Hds).
      simpl. rewrite resolve_labels_eval, Hlabels. done. }
    split.
    + rewrite Hflat. eexists. split; [done|]. apply lookup_insert_eq.
    + intros img. unfold from_zarr. rewrite Hattrs. simpl. rewrite Hflat.
      simpl.
      destruct (from_flat _) as [[arr'|a' ms']|] eqn:Hfrom; simpl;
        [done| |done].
      destruct (Image_new (attrs group) ms') as [img'|] eqn:Hnew; [|done].
      simpl. intros [= <-].
      apply Image_new_ok in Hnew as (attrs' & _ & -> & _). simpl.
      eapply (from_flat_member _ "labels"); [done| |exact Hfrom].
      apply lookup_insert_eq.
Qed.

End labels_facts.

(** ** Stores *)
Section stores.
Import image.

Definition yx : list Axis :=
  [ {| axis_name := "y"; axis_type := Some "space"; axis_unit := None |};
    {| axis_name := "x"; axis_type := Some "space"; axis_unit := None |} ].

Definition level (n : nat) : Spec :=
  ArraySpec {| shape := [n; n]; chunks := [n; n]; dtype := "<f8" |}.

Definition labels_group (names : list string) : Spec :=
  GroupSpec {| attr_multiscales := None; attr_labels := Some names |}
            (Some ∅).

Definition two_levels : Attrs :=
  {| attr_multiscales :=
       Some [ {| axes := yx;
                 datasets := [ {| path := "s0" |}; {| path := "s1" |} ] |} ];
     attr_labels := None |}.

(** A group at [broken] whose second array is missing. *)
Definition broken_missing : Group :=
  {| store := store_of_map {[ "broken/s0" := level 10 ]};
     group_path := "broken";
     attrs := two_levels |}.

(** The same group with a group in the place of the second array. *)
Definition broken_group : Group :=
  {| store := store_of_map (<["broken/s0" := level 10]>
                              {[ "broken/s1" := GroupSpec no_attrs (Some ∅) ]});
     group_path := "broken";
     attrs := two_levels |}.

Lemma from_zarr_dataset_errors_witness :
  from_zarr broken_missing
  = ([OpenArray "broken/s0"; OpenArray "broken/s1"],
     Raise (ValueError
       "Expected to find an array at broken/s1, but no array was found there."))
  ∧ from_zarr broken_group
    = ([OpenArray "broken/s0"; OpenArray "broken/s1"],
       Raise (ValueError
         "Expected to find an array at broken/s1, but a group was found there instead.")).
Proof.
  split.
  - refine (proj1 (from_zarr_dataset_errors broken_missing
                     {| multiscales := [ {| axes := yx;
                          datasets := [ {| path := "s0" |};
                                        {| path := "s1" |} ] |} ] |}
                     [ {| path := "s0" |} ] {| path := "s1" |} [] _ _ _) _).
    + reflexivity.
    + reflexivity.
    + constructor; [|constructor]. eexists. by vm_compute.
    + by vm_compute.
  - refine (proj1 (proj2 (from_zarr_dataset_errors broken_group
                     {| multiscales := [ {| axes := yx;
                          datasets := [ {| path := "s0" |};
                                        {| path := "s1" |} ] |} ] |}
                     [ {| path := "s0" |} ] {| path := "s1" |} [] _ _ _))
                  no_attrs (Some ∅) _).
    + reflexivity.
    + reflexivity.
    + constructor; [|constructor]. eexists. by vm_compute.
    + by vm_compute.
Defined.

(** An image group at [img] in a store that has a labels group at its
    root and another one inside the image group. *)
Definition nested_image : Group :=
  {| store := store_of_map
       (<["img/s0" := level 10]>
          (<["img/s1" := level 5]>
             (<["labels" := labels_group ["of_the_store_root"]]>
                {[ "img/labels" := labels_group ["of_the_image"] ]})));
     group_path := "img";
     attrs := two_levels |}.

(** The labels of the image read at [img] are those of the store root. *)
Example nested_image_labels :
  (img ← (from_zarr nested_image).2; Image_labels img)
  = Ok (Some {| labels.attributes :=
                  {| labels.labels := ["of_the_store_root"] |};
                labels.members := Some ∅ |}).
Proof. by vm_compute. Qed.

(** An image group at [img] that has no labels group, in a store that has
    one at its root. *)
Definition image_without_labels : Group :=
  {| store := store_of_map
       (<["img/s0" := level 10]>
          (<["img/s1" := level 5]>
             {[ "labels" := labels_group ["stray"] ]}));
     group_path := "img";
     attrs := two_levels |}.

(** C4 (the code at the failing input): the image group [img] has no
    child [labels], reading it succeeds, and yet the [labels] accessor of
    the result is not [None]: it is the labels group found at the root of
    the store. *)
Theorem from_zarr_labels_absent_under_group :
  store image_without_labels
        (group_path image_without_labels +:+ "/" +:+ "labels") = None
  ∧ (from_zarr image_without_labels).1
    = [OpenArray "img/s0"; OpenArray "img/s1"; OpenGroup "labels"]
  ∧ is_ok (from_zarr image_without_labels).2 = true
  ∧ (img ← (from_zarr image_without_labels).2; Image_labels img)
    = Ok (Some {| labels.attributes := {| labels.labels := ["stray"] |};
                  labels.members := Some ∅ |})
  ∧ (img ← (from_zarr image_without_labels).2; Image_labels img) ≠ Ok None.
Proof. repeat split; by vm_compute. Qed.

(** When the store has nothing at [labels], looking for the labels group
    raises nothing and leaves the flat member tree as it is. *)
Lemma resolve_labels_absent group flat :
  store group "labels" = None →
  resolve_labels group flat = ([OpenGroup "labels"], Ok flat).
Proof. intros H. by rewrite resolve_labels_eval, H. Qed.

End stores.

(** * Further properties *)

(** ** [_duplicates]: order and counts *)
Section duplicates_order.
Import image_label.
Context {A : Type} `{EqDecision A}.

(** The distinct elements of [l] in the order of their first occurrence. *)
Definition first_occurrences (l : list A) : list A :=
  reverse (remove_dups (reverse l)).

Lemma first_occurrences_snoc (l : list A) x :
  first_occurrences (l ++ [x]) =
  if decide (x ∈ first_occurrences l) then first_occurrences l
  else first_occurrences l ++ [x].
Proof.
  unfold first_occurrences. rewrite reverse_snoc. cbn [remove_dups].
  destruct (decide_rel elem_of x (reverse l)) as [Hin|Hnin].
  - rewrite decide_True; [done|].
    by apply elem_of_reverse, elem_of_remove_dups.
  - rewrite decide_False, reverse_cons; [done|].
    intros Hin. apply Hnin. by apply elem_of_remove_dups, elem_of_reverse.
Qed.

Lemma Counter_keys (values : list A) :
  (Counter values).*1 = first_occurrences values.
Proof.
  unfold Counter. induction values as [|x values IH] using rev_ind; [done|].
  rewrite foldl_app. cbn [foldl].
  rewrite counter_add_keys, first_occurrences_snoc, IH. done.
Qed.

Lemma counts_of_keys (counts : list (A * nat)) :
  NoDup counts.*1 →
  counts = (λ k, (k, count_of k counts)) <$> counts.*1.
Proof.
  induction counts as [|[k n] counts IH]; [done|].
  rewrite fmap_cons, NoDup_cons. cbn [fst]. intros [Hk Hnd].
  rewrite fmap_cons. cbn [count_of]. rewrite decide_True by done. f_equal.
  rewrite (IH Hnd) at 1. apply list_fmap_ext.
  intros i k' Hk'. cbn [count_of].
  destruct (decide (k = k')) as [->|]; [|done].
  destruct Hk. by eapply list_elem_of_lookup_2.
Qed.

Lemma filter_counts_keys (f : A → nat) (l : list A) :
  (filter (λ kv, 1 < kv.2) ((λ k, (k, f k)) <$> l)).*1
  = filter (λ k, 1 < f k) l.
Proof.
  induction l as [|k l IH]; [done|].
  rewrite fmap_cons, !filter_cons. cbn [snd].
  destruct (decide (1 < f k)); rewrite ?fmap_cons; cbn [fst]; by rewrite IH.
Qed.

End duplicates_order.

(** X1: [_duplicates] lists the elements that occur more than once, in the
    order of their first occurrence, each with its number of occurrences;
    an element that occurs once is left out.  The message of the
    [ValueError] of [_parse_colors] is [Duplicated label-value: ], the
    tuple of the duplicated label values in that order, and the sentence
    that label values must be unique. *)
Theorem duplicates_first_occurrence_order :
  (∀ (A : Type) `{EqDecision A} (values : list A),
     image_label._duplicates values
     = filter (λ kv, 1 < kv.2)
         ((λ k, (k, occurrences k values)) <$> first_occurrences values))
  ∧ ∀ cs : list image_label.Color.t,
      let label_values := image_label.Color.label_value <$> cs in
      let keys := filter (λ k, 1 < occurrences k label_values)
                         (first_occurrences label_values) in
      ¬ NoDup label_values →
      image_label._parse_colors (Some cs)
      = ([], Raise (ValueError
               ("Duplicated label-value: " +:+ repr_tuple keys
                +:+ ".label-values must be unique across elements of `colors`."))).
Proof.
  assert (∀ (A : Type) `{EqDecision A} (values : list A),
     image_label._duplicates values
     = filter (λ kv, 1 < kv.2)
         ((λ k, (k, occurrences k values)) <$> first_occurrences values))
    as Hdup.
  { intros A ? values. unfold image_label._duplicates. f_equal.
    destruct (Counter_counts values) as (Hnd & _ & Hcount).
    rewrite (counts_of_keys _ Hnd) at 1.
    rewrite (Counter_keys values). apply list_fmap_ext.
    intros i k _. by rewrite Hcount. }
  split; [apply Hdup|].
  intros cs label_values keys Hdups. unfold image_label._parse_colors.
  fold label_values. rewrite decide_True.
  - rewrite (Hdup Z _ label_values), filter_counts_keys. done.
  - destruct (image_label._duplicates label_values) eqn:Hnil; [|simpl; lia].
    by apply duplicates_nil in Hnil.
Qed.

Lemma duplicates_first_occurrence_order_witness :
  image_label._duplicates [3; 1; 2; 1; 3; 3]%Z = [(3%Z, 3); (1%Z, 2)]
  ∧ image_label._parse_colors
      (Some (color <$> [3; 1; 2; 1; 3; 3]%Z))
    = ([], Raise (ValueError
         "Duplicated label-value: (3, 1).label-values must be unique across elements of `colors`.")).
Proof.
  split.
  - etrans; [exact (proj1 duplicates_first_occurrence_order Z _ _)|].
    by vm_compute.
  - etrans; [refine (proj2 duplicates_first_occurrence_order
                       (color <$> [3; 1; 2; 1; 3; 3]%Z) _)|by vm_compute].
    rewrite NoDup_occurrences. intros H. specialize (H 1%Z).
    vm_compute in H. lia.
Defined.

(** ** [get_acquisition_paths]: nothing is lost *)
Section acquisition_partition.
Import well_types.

(** The number of paths a mapping holds. *)
Definition count_paths (m : gmap Z (list string)) : nat :=
  map_fold (λ _ l n, length l + n) 0 m.

Lemma count_paths_insert (m : gmap Z (list string)) a l :
  count_paths (<[a := l]> m) + length (default [] (m !! a))
  = count_paths m + length l.
Proof.
  assert (∀ (m' : gmap Z (list string)) l', m' !! a = None →
            count_paths (<[a := l']> m') = length l' + count_paths m')
    as Hfresh.
  { intros m' l' Hm'. unfold count_paths.
    rewrite map_fold_insert_L; [done| |done]. intros. lia. }
  destruct (m !! a) as [l0|] eqn:Ha; simpl.
  - rewrite <- (insert_delete_eq m a l).
    rewrite <- (insert_delete_id m a l0) at 2 by done.
    rewrite !Hfresh by apply lookup_delete_eq. lia.
  - rewrite Hfresh by done. lia.
Qed.

Lemma add_image_loop_count (imgs : list WellImage) acc m :
  for_fold add_image imgs acc = Ok m →
  count_paths m = count_paths acc + length imgs.
Proof.
  revert acc. induction imgs as [|i imgs IH]; intros acc; simpl.
  - intros [= <-]. lia.
  - unfold mbind, result_bind, add_image.
    destruct (acquisition i) as [a|]; [|done].
    intros Hm%IH. rewrite Hm.
    pose proof (count_paths_insert acc a
                  (default [] (acc !! a) ++ [path i])) as Hins.
    rewrite length_app in Hins. simpl in Hins. lia.
Qed.

(** X2: when [get_acquisition_paths] answers a mapping, no image is lost
    and none is counted twice: the mapping holds as many paths as the well
    has images, its keys are the acquisition ids of the images, no list is
    empty, and the path of every image is in the list of its
    acquisition.  A well without images gives the empty mapping. *)
Theorem get_acquisition_paths_partition (self : WellMeta) m :
  get_acquisition_paths self = Ok m →
  count_paths m = length (images self)
  ∧ dom m = list_to_set (omap acquisition (images self))
  ∧ (∀ a l, m !! a = Some l → l ≠ [])
  ∧ (∀ i, i ∈ images self →
       ∃ a l, acquisition i = Some a ∧ m !! a = Some l ∧ path i ∈ l)
  ∧ (images self = [] → m = ∅).
Proof.
  unfold get_acquisition_paths. intros Hm.
  pose proof (add_image_loop (images self) ∅) as Hloop.
  rewrite Hm in Hloop. destruct Hloop as [Hall Hlookup].
  assert (∀ a, m !! a = match paths_of_acquisition a (images self) with
                        | [] => None
                        | l => Some l
                        end) as Hget.
  { intros a. rewrite Hlookup, lookup_empty. unfold grouped.
    by destruct (paths_of_acquisition a (images self)). }
  assert (∀ a i, i ∈ images self → acquisition i = Some a →
                 path i ∈ paths_of_acquisition a (images self)) as Hin.
  { intros a i Hi Ha. apply list_elem_of_fmap. exists i. split; [done|].
    by apply list_elem_of_filter. }
  split; [|split; [|split; [|split]]].
  - apply add_image_loop_count in Hm. rewrite Hm. unfold count_paths.
    by rewrite map_fold_empty.
  - apply set_eq. intros a.
    rewrite elem_of_dom, elem_of_list_to_set, list_elem_of_omap, Hget.
    split.
    + destruct (paths_of_acquisition a (images self)) as [|p l] eqn:Hp;
        [by intros [? ?]|]. intros _.
      assert (p ∈ paths_of_acquisition a (images self)) as Hpin
        by (rewrite Hp; by left).
      apply list_elem_of_fmap in Hpin as (i & _ & [? ?]%list_elem_of_filter).
      eauto.
    + intros (i & Hi & Ha). specialize (Hin a i Hi Ha).
      destruct (paths_of_acquisition a (images self)); [|done].
      by apply elem_of_nil in Hin.
  - intros a l. rewrite Hget.
    destruct (paths_of_acquisition a (images self)); [done|].
    by intros [= <-].
  - intros i Hi. rewrite Forall_forall in Hall.
    destruct (Hall i Hi) as [a Ha]. specialize (Hin a i Hi Ha).
    exists a, (paths_of_acquisition a (images self)).
    split; [done|]. split; [|done]. rewrite Hget.
    destruct (paths_of_acquisition a (images self)); [|done].
    by apply elem_of_nil in Hin.
  - intros Hnil. rewrite Hnil in Hm. by injection Hm as <-.
Qed.

Lemma get_acquisition_paths_partition_witness :
  let well :=
    {| images := [ {| path := "0"; acquisition := Some 1%Z |};
                   {| path := "1"; acquisition := Some 1%Z |};
                   {| path := "2"; acquisition := Some 2%Z |};
                   {| path := "3"; acquisition := Some 2%Z |} ];
       version := Some "0.4" |} in
  let m : gmap Z (list string) :=
    <[1%Z := ["0"; "1"]]> (<[2%Z := ["2"; "3"]]> ∅) in
  get_acquisition_paths well = Ok m ∧ count_paths m = 4.
Proof.
  intros well m.
  assert (get_acquisition_paths well = Ok m) as Hm by (by vm_compute).
  split; [done|].
  exact (proj1 (get_acquisition_paths_partition well m Hm)).
Defined.

End acquisition_partition.

(** ** [ImageLabel]: when the construction succeeds *)
Section image_label_accepted.
Import image_label.

(** The value of a field with default [None]. *)
Definition given {A} (input : field (option A)) : option A :=
  match input with
  | Given x => x
  | Missing => None
  end.

(** X3: [ImageLabel(...)] is constructed exactly when the version is given
    as [None] or as ["0.4"], the label values of a present [colors] are
    pairwise distinct and, with [properties] present as well, are as a set
    the label values of the properties; properties may repeat a label
    value.  The model then holds the values that were given, with [None]
    for the keys left out. *)
Theorem image_label_constructed config input :
  (is_ok (ImageLabel_new config input).2 = true ↔
     (input_version input = Given None
      ∨ input_version input = Given (Some "0.4"))
     ∧ ∀ cs, given (input_colors input) = Some cs →
         NoDup (Color.label_value <$> cs)
         ∧ ∀ ps, given (input_properties input) = Some ps →
             ∀ z, z ∈ Color.label_value <$> cs
                  ↔ z ∈ Property.label_value <$> ps)
  ∧ ∀ model, (ImageLabel_new config input).2 = Ok model →
      colors model = given (input_colors input)
      ∧ properties model = given (input_properties input)
      ∧ source model = given (input_source input)
      ∧ Given (version model) = input_version input.
Proof.
  destruct input as [ic ip isrc iv]. unfold ImageLabel_new. simpl.
  assert (validate_colors config ic
          = ((validate_colors config ic).1,
             match given ic with
             | Some cs =>
                 if decide (NoDup (Color.label_value <$> cs))
                 then Ok (Some cs)
                 else Raise (ValueError
                        (msg_duplicated
                           (_duplicates (Color.label_value <$> cs)).*1))
             | None => Ok None
             end)) as Hc.
  { destruct ic as [|[cs|]]; simpl.
    - by destruct (validate_default config).
    - unfold _parse_colors.
      pose proof (duplicates_nil (Color.label_value <$> cs)) as Hnil.
      destruct (decide (0 < length _)) as [Hpos|Hzero];
        destruct (decide (NoDup _)) as [Hnd|Hnd]; simpl; try done.
      + apply Hnil in Hnd. rewrite Hnd in Hpos. simpl in Hpos. lia.
      + destruct Hnd. apply Hnil.
        destruct (_duplicates _); [done | simpl in Hzero; lia].
    - done. }
  rewrite Hc. clear Hc. generalize ((validate_colors config ic).1).
  intros warnings.
  assert (∀ v, is_ok (validate_version iv) = true ∧
               (validate_version iv = Ok v → Given v = iv)
               ↔ (iv = Given None ∨ iv = Given (Some "0.4"))
                 ∧ (validate_version iv = Ok v → Given v = iv)) as Hv.
  { intros v. unfold validate_version. destruct iv as [|[s|]]; simpl.
    - naive_solver.
    - destruct (decide (s = "0.4")) as [->|]; simpl; naive_solver.
    - naive_solver. }
  assert (∀ v, validate_version iv = Ok v → Given v = iv) as Hgiven.
  { intros v. unfold validate_version.
    destruct iv as [|[s|]]; simpl; [done| |by intros [= <-]].
    destruct (decide (s = "0.4")); [by intros [= <-] | done]. }
  assert (is_ok (validate_version iv) = true
          ↔ iv = Given None ∨ iv = Given (Some "0.4")) as Hver.
  { unfold validate_version. destruct iv as [|[s|]]; simpl.
    - naive_solver.
    - destruct (decide (s = "0.4")) as [->|]; simpl; naive_solver.
    - naive_solver. }
  clear Hv. rewrite <- Hver. clear Hver.
  destruct (given ic) as [cs|] eqn:Hic.
  - destruct (decide (NoDup (Color.label_value <$> cs))) as [Hnd|Hnd].
    + destruct (validate_version iv) as [v|e] eqn:Hvv; simpl.
      * unfold _parse_model, _parse_imagelabel. simpl.
        change (validate_optional ip) with (given ip).
        change (validate_optional isrc) with (given isrc).
        destruct (given ip) as [ps|] eqn:Hip.
        -- destruct (decide _) as [Hne|Heq]; simpl.
           ++ split; [|done]. split; [done|]. intros [_ H].
              destruct (H cs eq_refl) as [_ Hset].
              destruct Hne. apply list_to_set_eq_iff. by apply Hset.
           ++ split.
              ** split; [intros _|done]. split; [done|].
                 intros cs' [= <-]. split; [done|]. intros ps' [= <-].
                 apply list_to_set_eq_iff.
                 by destruct (decide (list_to_set (Color.label_value <$> cs)
                                      = (list_to_set
                                           (Property.label_value <$> ps)
                                         : gset Z))).
              ** intros model [= <-]. simpl. rewrite (Hgiven v eq_refl).
                 done.
        -- simpl. split.
           ++ split; [intros _|done]. split; [done|].
              intros cs' [= <-]. split; [done|]. intros ps' [=].
           ++ intros model [= <-]. simpl. by rewrite (Hgiven v eq_refl).
      * split; [|done]. split; [done|]. by intros [? _].
    + destruct (validate_version iv) as [v|e]; simpl.
      * split; [|done]. split; [done|]. intros [_ H].
        by destruct (H cs eq_refl).
      * split; [|done]. split; [done|]. by intros [? _].
  - destruct (validate_version iv) as [v|e] eqn:Hvv; simpl.
    + unfold _parse_model, _parse_imagelabel. simpl.
      change (validate_optional ip) with (given ip).
      change (validate_optional isrc) with (given isrc).
      split.
      * split; [intros _|done]. split; [done|]. intros cs [=].
      * intros model [= <-]. simpl. by rewrite (Hgiven v eq_refl).
    + split; [|done]. split; [done|]. by intros [? _].
Qed.

End image_label_accepted.

(** ** [_check_arrays_compatible]: datasets that are not arrays *)
Section image_not_array.
Import image.



Lemma slash_key_ne_root (s : string) : "" ≠ "/" +:+ s.
Proof. done. Qed.

(** X5: an image whose multiscales declare a dataset cannot be built
    without members: with members [None] or the empty mapping the
    construction is refused, and the first dataset that is declared is
    reported as an array that does not exist in the group. *)
Theorem image_without_members a attrs ms n d rest :
  model_validate a = Ok attrs →
  ms = None ∨ ms = Some ∅ →
  checks (multiscales attrs) = (n, d) :: rest →
  Image_new a ms = Raise (ValidationError [msg_not_exist (path d)]).
Proof.
  intros Hattrs Hms Hchecks.
  assert (∀ s, Image_to_flat {| attributes := attrs; members := ms |}
               !! ("/" +:+ s) = None) as Hflat.
  { intros s. unfold Image_to_flat. simpl.
    rewrite lookup_insert_ne by apply slash_key_ne_root.
    destruct Hms as [-> | ->]; [done|]. by rewrite map_fold_empty. }
  unfold Image_new. rewrite Hattrs. simpl.
  unfold _check_arrays_compatible. rewrite check_multiscales_checks. simpl.
  rewrite Hchecks. simpl. unfold check_dataset. by rewrite Hflat.
Qed.

Lemma image_without_members_witness :
  let m := {| axes := yx;
              datasets := [ {| path := "s0" |}; {| path := "s1" |} ] |} in
  Image_new {| attr_multiscales := Some [m]; attr_labels := None |} None
  = Raise (ValidationError
      ["The multiscale metadata references an array that does not exist in this group: s0"]).
Proof.
  intros m.
  exact (image_without_members
           {| attr_multiscales := Some [m]; attr_labels := None |}
           {| multiscales := [m] |} None 2 {| path := "s0" |}
           [(2, {| path := "s1" |})] eq_refl (or_introl eq_refl) eq_refl).
Defined.

End image_not_array.

(** ** [Image.from_zarr]: the accesses to the store *)
Section from_zarr_accesses.
Import image.

Lemma logged_bind_ok {L A B} (l : list L) (a : A) (f : A → logged L B) :
  ((l, Ok a) : logged L A) ≫= f = (l ++ (f a).1, (f a).2).
Proof. unfold mbind, logged_bind. by destruct (f a). Qed.

Lemma resolve_datasets_prefix group (ds : list Dataset) flat :
  (for_fold (resolve_dataset group) ds flat).1
    `prefix_of` OpenArray <$> (array_path group <$> ds)
  ∧ (is_ok (for_fold (resolve_dataset group) ds flat).2 = true
     ↔ Forall (resolves group) ds).
Proof.
  revert flat. induction ds as [|d ds IH]; intros flat.
  - split; [by exists [] | done].
  - cbn [for_fold]. rewrite resolve_dataset_eval, !fmap_cons.
    destruct (store group (array_path group d)) as [[arr|a ms]|] eqn:Hd.
    + rewrite logged_bind_ok. cbn [fst snd].
      destruct (IH (<["/" +:+ path d:=ArraySpec arr]> flat))
        as [[k Hk] Hok].
      split.
      * exists k. rewrite Hk. by rewrite <- app_assoc.
      * rewrite Hok, Forall_cons. split; [|by intros [_ ?]].
        intros ?. split; [by exists arr | done].
    + simpl. split; [by eexists|].
      split; [done|]. intros [[arr ?] _]%Forall_cons. congruence.
    + simpl. split; [by eexists|].
      split; [done|]. intros [[arr ?] _]%Forall_cons. congruence.
Qed.

(** X6: with attributes that do not validate [from_zarr] raises before it
    opens any array or group (the attributes of the group itself have been
    read by then).  Otherwise what it opens is always a beginning of
    the list of the declared datasets, in their order, followed by the
    group [labels]: it opens [labels] exactly when every dataset resolved,
    and a run that returns an image has opened all of them. *)
Theorem from_zarr_store_accesses group :
  match model_validate (attrs group) with
  | Raise e => from_zarr group = ([], Raise e)
  | Ok multi_meta =>
      let ds := multiscales multi_meta ≫= datasets in
      let all := OpenArray <$> (array_path group <$> ds) in
      (from_zarr group).1 `prefix_of` all ++ [OpenGroup "labels"]
      ∧ (OpenGroup "labels" ∈ (from_zarr group).1
         ↔ Forall (resolves group) ds)
      ∧ (is_ok (from_zarr group).2 = true →
           (from_zarr group).1 = all ++ [OpenGroup "labels"])
  end.
Proof.
  unfold from_zarr, members_tree_flat.
  destruct (model_validate (attrs group)) as [multi_meta|e]; [|done].
  simpl. rewrite resolve_multiscales_datasets.
  pose proof (resolve_datasets_prefix group
                (multiscales multi_meta ≫= datasets) ∅) as [Hprefix Hok].
  pose proof (resolve_datasets_log group
                (multiscales multi_meta ≫= datasets) ∅ (OpenGroup "labels"))
    as Hlog.
  destruct (for_fold _ _ _) as [l1 [flat|e]] eqn:Hloop; simpl in *.
  - assert (Forall (resolves group) (multiscales multi_meta ≫= datasets))
      as Hall by (by apply Hok).
    rewrite (resolve_datasets_ok _ _ _ Hall) in Hloop.
    injection Hloop as <- <-. rewrite resolve_labels_eval.
    assert (∀ (r : logged access Image),
       r.1 = [] →
       ((OpenArray <$> (array_path group
                          <$> multiscales multi_meta ≫= datasets))
        ++ [OpenGroup "labels"]) ++ r.1
       = (OpenArray <$> (array_path group
                           <$> multiscales multi_meta ≫= datasets))
         ++ [OpenGroup "labels"]) as Hnil.
    { intros r ->. by rewrite app_nil_r. }
    destruct (store group "labels") as [[arr|a ms]|]; simpl.
    + split; [done|]. split; [|done]. split; [done|].
      intros _. apply elem_of_app. right. by left.
    + destruct (from_flat _) as [[arr'|a' ms']|]; simpl;
        rewrite app_nil_r; (split; [done|]); (split; [|done]);
        (split; [done|]); intros _; apply elem_of_app; right; by left.
    + destruct (from_flat _) as [[arr'|a' ms']|]; simpl;
        rewrite app_nil_r; (split; [done|]); (split; [|done]);
        (split; [done|]); intros _; apply elem_of_app; right; by left.
  - split; [|split].
    + by apply prefix_app_r.
    + split.
      * intros Hin. by destruct (Hlog Hin) as (? & _ & ?).
      * intros Hall%Hok. done.
    + done.
Qed.

(** X7: the only failure of the labels lookup that [from_zarr] catches is
    the absence of a group: when the store holds an array at [labels],
    the [ContainsArrayError] of [zarr.open_group] leaves [from_zarr],
    although every dataset resolved. *)
Theorem from_zarr_labels_is_array group multi_meta arr :
  model_validate (attrs group) = Ok multi_meta →
  Forall (resolves group) (multiscales multi_meta ≫= datasets) →
  store group "labels" = Some (ArraySpec arr) →
  from_zarr group
  = ((OpenArray <$> (array_path group
                       <$> multiscales multi_meta ≫= datasets))
     ++ [OpenGroup "labels"],
     Raise (ContainsArrayError "labels")).
Proof.
  intros Hattrs Hds Hlabels. unfold from_zarr, members_tree_flat.
  rewrite Hattrs. simpl.
  rewrite resolve_multiscales_datasets, (resolve_datasets_ok _ _ _ Hds).
  simpl. by rewrite resolve_labels_eval, Hlabels.
Qed.

Lemma from_zarr_labels_is_array_witness :
  from_zarr
    {| store := store_of_map
         (<["img/s0" := level 10]>
            (<["img/s1" := level 5]> {[ "labels" := level 3 ]}));
       group_path := "img";
       attrs := two_levels |}
  = ([OpenArray "img/s0"; OpenArray "img/s1"; OpenGroup "labels"],
     Raise (ContainsArrayError "labels")).
Proof.
  refine (from_zarr_labels_is_array _
            {| multiscales := [ {| axes := yx;
                 datasets := [ {| path := "s0" |}; {| path := "s1" |} ] |} ] |}
            {| shape := [3; 3]; chunks := [3; 3]; dtype := "<f8" |} _ _ _).
  - reflexivity.
  - repeat constructor; eexists; by vm_compute.
  - by vm_compute.
Defined.

End from_zarr_accesses.

(** ** Member trees of one level *)
Section one_level.

(** A path of a single component: not empty and without [/]. *)
Definition simple_name (n : string) : Prop :=
  n ≠ "" ∧ split "/" n = [n].

Lemma split_single_cons a s :
  split "/" (String a s) = [String a s] → a ≠ "/"%char ∧ split "/" s = [s].
Proof.
  cbn [split]. pose proof (split_nonempty "/" s) as Hs.
  destruct (decide (a = "/"%char)) as [->|Hne].
  - destruct (split "/" s); [done|]. intros [=].
  - destruct (split "/" s) as [|x [|y l]]; [done| |intros [=]].
    by intros [= ->].
Qed.

Lemma lstrip_simple n : simple_name n → lstrip "/" n = n.
Proof.
  intros [Hne Hsplit]. destruct n as [|a n]; [done|].
  apply split_single_cons in Hsplit as [Ha _]. simpl.
  by rewrite decide_False.
Qed.

Lemma endswith_single s : split "/" s = [s] → endswith "/" s = false.
Proof.
  induction s as [|a s IH]; [done|].
  intros [Ha Hs]%split_single_cons. specialize (IH Hs). simpl.
  destruct s; [by rewrite bool_decide_eq_false | done].
Qed.

Lemma endswith_slash_simple n :
  simple_name n → endswith "/" ("/" +:+ n) = false.
Proof.
  intros [Hne Hsplit]. change ("/" +:+ n) with (String "/" n). simpl.
  destruct n; [done|]. by apply endswith_single.
Qed.

Lemma place_single n v :
  split "/" n = [n] →
  place ("/" +:+ n, v)
  = Ok match v with
       | ArraySpec _ => MemberArray n v
       | GroupSpec _ _ => SubMember n "" v
       end.
Proof.
  intros Hn. unfold place. change ("/" +:+ n) with (String "/" n).
  cbn [split]. rewrite decide_True by done. rewrite Hn.
  rewrite decide_True by done. by destruct v.
Qed.

(** What [from_flat] makes of a node that has no descendants in the flat
    tree, and what [to_flat] makes of such a member. *)
Definition unflatten_leaf (v : Spec) : Spec :=
  match v with
  | ArraySpec arr => ArraySpec arr
  | GroupSpec a _ => GroupSpec a (Some ∅)
  end.

Definition flatten_leaf (v : Spec) : Spec :=
  match v with
  | ArraySpec arr => ArraySpec arr
  | GroupSpec a _ => GroupSpec a None
  end.

Definition leaf (v : Spec) : Prop :=
  match v with
  | ArraySpec _ => True
  | GroupSpec _ ms => ms = None ∨ ms = Some ∅
  end.

Lemma to_flat_leaf v root :
  leaf v → to_flat v root = {[ root := flatten_leaf v ]}.
Proof.
  destruct v as [arr|a ms]; [done|]. simpl.
  intros [-> | ->]; [done|]. by rewrite map_fold_empty.
Qed.

(** The flattened tree of a group whose members are leaves. *)
Lemma to_flat_leaves a (m : gmap string Spec) n :
  map_Forall (λ _ v, leaf v) m →
  to_flat (GroupSpec a (Some m)) "" !! ("/" +:+ n) = flatten_leaf <$> m !! n.
Proof.
  cbn [to_flat]. rewrite lookup_insert_ne by done.
  revert n. apply (map_fold_weak_ind
    (λ (r : gmap string Spec) (m : gmap string Spec),
       ∀ n, map_Forall (λ _ v, leaf v) m →
            r !! ("/" +:+ n) = flatten_leaf <$> m !! n)).
  - intros n _. by rewrite !lookup_empty.
  - intros i x m' r Hi IH n [Hx Hm']%map_Forall_insert; [|done].
    rewrite (to_flat_leaf _ _ Hx).
    change ("" +:+ "/" +:+ i) with (String "/" i).
    change ("/" +:+ n) with (String "/" n).
    destruct (decide (i = n)) as [->|Hne].
    + rewrite lookup_insert_eq.
      by rewrite (lookup_union_Some_l _ _ _ (flatten_leaf x))
        by apply lookup_singleton_eq.
    + rewrite lookup_insert_ne by done.
      rewrite lookup_union_r by (apply lookup_singleton_ne; congruence).
      by apply IH.
Qed.

End one_level.

(** ** [from_flat] on a flat tree of one level *)
Section from_flat_one_level.

Lemma map_each_all_ok {A B} (f : A → result B) (l : list A) :
  (∀ x, x ∈ l → is_ok (f x) = true) → ∃ ys, map_each f l = Ok ys.
Proof.
  induction l as [|x l IH]; intros Hok; [by eexists|].
  cbn [map_each]. unfold mbind, result_bind.
  pose proof (Hok x ltac:(by left)) as Hx.
  destruct (f x) as [y|]; [|done].
  destruct IH as [ys ->]; [|by eexists].
  intros x' ?. apply Hok. by right.
Qed.

Lemma member_arrays_of_lookup_2 ps n v :
  MemberArray n v ∈ ps →
  (∀ v', MemberArray n v' ∈ ps → v' = v) →
  member_arrays_of ps !! n = Some v.
Proof.
  induction ps as [|[n' v'|n' k' v'] ps IH]; simpl; intros Hin Huniq.
  - by apply elem_of_nil in Hin.
  - destruct (decide (n' = n)) as [->|Hne].
    + rewrite lookup_insert_eq. f_equal. apply Huniq. by left.
    + rewrite lookup_insert_ne by done.
      apply elem_of_cons in Hin as [?|Hin]; [congruence|].
      apply IH; [done|]. intros v'' ?. apply Huniq. by right.
  - apply elem_of_cons in Hin as [?|Hin]; [done|].
    apply IH; [done|]. intros v'' ?. apply Huniq. by right.
Qed.

Lemma from_flat_group_only_root fuel a ms :
  from_flat_group (S fuel) {[ "" := GroupSpec a ms ]}
  = Ok (GroupSpec a (Some ∅)).
Proof.
  cbn [from_flat_group]. rewrite lookup_singleton_eq, delete_singleton_eq.
  rewrite map_to_list_empty. simpl. rewrite map_to_list_empty. simpl.
  by rewrite (left_id_L ∅ (∪)).
Qed.

Context (flat : gmap string Spec).
Hypothesis Hkeys :
  ∀ k v, flat !! k = Some v → ∃ n, k = "/" +:+ n ∧ simple_name n.

Lemma one_level_no_root : flat !! "" = None.
Proof.
  destruct (flat !! "") as [v|] eqn:Hroot; [|done].
  by destruct (Hkeys _ _ Hroot) as (n & ? & _).
Qed.

Lemma one_level_placed ps p :
  map_each place (map_to_list flat) = Ok ps →
  p ∈ ps ↔
  ∃ n v, simple_name n ∧ flat !! ("/" +:+ n) = Some v
         ∧ p = match v with
               | ArraySpec _ => MemberArray n v
               | GroupSpec _ _ => SubMember n "" v
               end.
Proof.
  intros Hps. split.
  - intros Hp.
    destruct (map_each_ok_elem_inv _ _ _ _ Hps Hp) as ([k v] & Hkv & Hpl).
    apply elem_of_map_to_list in Hkv.
    destruct (Hkeys _ _ Hkv) as (n & -> & Hn).
    rewrite (place_single n v) in Hpl by apply Hn.
    injection Hpl as <-. eauto.
  - intros (n & v & Hn & Hv & ->).
    apply elem_of_map_to_list in Hv.
    destruct (map_each_ok_elem _ _ _ _ Hps Hv) as (p & Hpl & Hp).
    rewrite (place_single n v) in Hpl by apply Hn. by injection Hpl as <-.
Qed.

Lemma one_level_submember ps n sub :
  map_each place (map_to_list flat) = Ok ps →
  submembers_of ps !! n = Some sub →
  ∃ a ms, flat !! ("/" +:+ n) = Some (GroupSpec a ms)
          ∧ sub = {[ "" := GroupSpec a ms ]}.
Proof.
  intros Hps Hsub.
  assert (∀ k v, sub !! k = Some v →
            k = "" ∧ flat !! ("/" +:+ n) = Some v
            ∧ ∃ a ms, v = GroupSpec a ms) as Hentries.
  { intros k v Hk.
    pose proof (submembers_of_lookup_inv _ _ _ _ _ Hsub Hk) as Hp.
    apply (one_level_placed _ _ Hps) in Hp as (n' & v' & _ & Hv' & Hp).
    destruct v' as [arr|a ms]; [done|]. injection Hp as -> -> ->. eauto. }
  destruct (submembers_of_nonempty _ _ _ Hsub) as (k & v & Hk).
  destruct (Hentries _ _ Hk) as (-> & Hv & a & ms & ->).
  exists a, ms. split; [done|]. apply map_eq. intros k.
  destruct (decide (k = "")) as [->|Hne].
  - by rewrite lookup_singleton_eq.
  - rewrite lookup_singleton_ne by done.
    destruct (sub !! k) as [v'|] eqn:Hk'; [|done].
    by destruct (Hentries _ _ Hk') as (? & _).
Qed.

(** A flat tree whose keys are [/] followed
    by a single component becomes a group with one member for each key:
    the arrays as they are, the groups without members. *)
Lemma from_flat_group_one_level fuel :
  (∀ k v, flat !! k = Some v → String.length k ≤ fuel) →
  ∃ m, from_flat_group (S fuel) flat = Ok (GroupSpec no_attrs (Some m))
       ∧ ∀ n, m !! n = unflatten_leaf <$> flat !! ("/" +:+ n).
Proof.
  intros Hfuel. cbn [from_flat_group]. rewrite one_level_no_root.
  rewrite (delete_id flat "") by apply one_level_no_root.
  destruct (map_each_all_ok place (map_to_list flat)) as [ps Hps].
  { intros [k v] Hkv%elem_of_map_to_list.
    destruct (Hkeys _ _ Hkv) as (n & -> & Hn).
    by rewrite (place_single n v) by apply Hn. }
  rewrite Hps. cbn [mbind result_bind].
  assert (∀ n sub, (n, sub) ∈ map_to_list (submembers_of ps) →
            ∃ a ms, flat !! ("/" +:+ n) = Some (GroupSpec a ms)
                    ∧ (g ← from_flat_group fuel sub; Ok (n, g))
                      = Ok (n, GroupSpec a (Some ∅))) as Hgroup.
  { intros n sub Hin%elem_of_map_to_list.
    destruct (one_level_submember _ _ _ Hps Hin) as (a & ms & Hflat & ->).
    exists a, ms. split; [done|].
    destruct fuel as [|fuel'].
    - specialize (Hfuel _ _ Hflat).
      change ("/" +:+ n) with (String "/" n) in Hfuel. simpl in Hfuel. lia.
    - by rewrite from_flat_group_only_root. }
  destruct (map_each_all_ok
              (λ '(subparent_name, submemb),
                 g ← from_flat_group fuel submemb; Ok (subparent_name, g))
              (map_to_list (submembers_of ps))) as [gs Hgs].
  { intros [n sub] Hin. destruct (Hgroup _ _ Hin) as (a & ms & _ & ->).
    done. }
  rewrite Hgs. eexists. split; [done|]. intros n.
  assert (member_arrays_of ps !! n
          = match flat !! ("/" +:+ n) with
            | Some (ArraySpec arr) => Some (ArraySpec arr)
            | _ => None
            end) as Harrays.
  { destruct (member_arrays_of ps !! n) as [v|] eqn:Hv.
    - apply member_arrays_of_lookup in Hv.
      apply (one_level_placed _ _ Hps) in Hv as (n' & v' & _ & Hv' & Hp).
      destruct v' as [arr|a ms]; [|done]. injection Hp as -> ->.
      by rewrite Hv'.
    - destruct (flat !! ("/" +:+ n)) as [[arr|a ms]|] eqn:Hflat; try done.
      rewrite <- Hv. destruct (Hkeys _ _ Hflat) as (n' & Hn' & Hs).
      assert (n' = n) as -> by (by injection Hn').
      apply member_arrays_of_lookup_2.
      + apply (one_level_placed _ _ Hps). eauto.
      + intros v' Hv'.
        apply (one_level_placed _ _ Hps) in Hv' as (n' & v'' & _ & Hv'' & Hp).
        destruct v'' as [arr'|]; [|done]. injection Hp as -> ->. congruence. }
  assert ((list_to_map gs : gmap string Spec) !! n
          = match flat !! ("/" +:+ n) with
            | Some (GroupSpec a _) => Some (GroupSpec a (Some ∅))
            | _ => None
            end) as Hgroups.
  { assert (NoDup gs.*1) as Hnd.
    { rewrite (map_each_keys _ _ _ Hgs). apply NoDup_fst_map_to_list. }
    destruct (list_to_map gs !! n) as [g|] eqn:Hg.
    - apply elem_of_list_to_map_2 in Hg.
      destruct (map_each_ok_elem_inv _ _ _ _ Hgs Hg) as ([n' sub] & Hin & HF).
      destruct (Hgroup _ _ Hin) as (a & ms & Hflat & HF').
      rewrite HF' in HF. injection HF as -> <-. by rewrite Hflat.
    - destruct (flat !! ("/" +:+ n)) as [[arr|a ms]|] eqn:Hflat; try done.
      rewrite <- Hg. apply elem_of_list_to_map_1; [done|].
      destruct (Hkeys _ _ Hflat) as (n' & Hn' & Hs).
      assert (n' = n) as -> by (by injection Hn').
      assert (SubMember n "" (GroupSpec a ms) ∈ ps) as Hp
        by (apply (one_level_placed _ _ Hps); eauto).
      destruct (submembers_of_lookup ps n "" (GroupSpec a ms) Hp)
        as (sub & Hsub & _).
      { intros v' Hv'.
        apply (one_level_placed _ _ Hps) in Hv' as (n' & v'' & _ & Hv'' & Hp').
        destruct v'' as [|a' ms']; [done|]. injection Hp' as -> ->.
        congruence. }
      apply elem_of_map_to_list in Hsub.
      destruct (map_each_ok_elem _ _ _ _ Hgs Hsub) as ([n' g] & HF & Hin).
      destruct (Hgroup _ _ Hsub) as (a' & ms' & Hflat' & HF').
      rewrite HF' in HF. injection HF as <- <-.
      rewrite Hflat in Hflat'. by injection Hflat' as <- <-. }
  destruct (flat !! ("/" +:+ n)) as [[arr|a ms]|]; simpl.
  - by apply lookup_union_Some_l.
  - rewrite lookup_union_r by done. done.
  - apply lookup_union_None. done.
Qed.

Lemma from_flat_one_level :
  ∃ m, from_flat flat = Ok (GroupSpec no_attrs (Some m))
       ∧ ∀ n, m !! n = unflatten_leaf <$> flat !! ("/" +:+ n).
Proof.
  destruct (from_flat_group_one_level (max_key_length flat)
              (max_key_length_bound flat)) as (m & Hm & Hlookup).
  exists m. split; [|done]. unfold from_flat.
  destruct (decide _) as [(k & v & Hk & Hend)|_].
  - destruct (Hkeys _ _ Hk) as (n & -> & Hn).
    by rewrite endswith_slash_simple in Hend.
  - destruct (map_to_list flat) as [|[k v] l] eqn:Hlist; [done|].
    assert (flat !! k = Some v) as Hk
      by (apply elem_of_map_to_list; rewrite Hlist; by left).
    destruct (Hkeys _ _ Hk) as (n & -> & _). done.
Qed.

End from_flat_one_level.

(** ** [Image.from_zarr] on datasets with single-component paths *)
Section from_zarr_one_level.
Import image.

Lemma foldl_add_resolved_elem group (ds : list Dataset) flat0 k v :
  foldl (add_resolved group) flat0 ds !! k = Some v →
  flat0 !! k = Some v
  ∨ ∃ d, d ∈ ds ∧ k = "/" +:+ path d
         ∧ store group (array_path group d) = Some v.
Proof.
  induction ds as [|d ds IH] using rev_ind; [by left|].
  rewrite foldl_app. cbn [foldl]. unfold add_resolved at 1.
  assert (foldl (add_resolved group) flat0 ds !! k = Some v →
          flat0 !! k = Some v
          ∨ ∃ d0, d0 ∈ ds ++ [d] ∧ k = "/" +:+ path d0
                  ∧ store group (array_path group d0) = Some v) as IH'.
  { intros [?|(d0 & ? & ? & ?)]%IH; [by left|]. right. exists d0.
    split; [|done]. apply elem_of_app. by left. }
  destruct (store group (array_path group d)) as [node|] eqn:Hd; [|done].
  destruct (decide ("/" +:+ path d = k)) as [<-|Hne].
  - rewrite lookup_insert_eq. intros [= <-]. right. exists d.
    split; [|done]. apply elem_of_app. right. by left.
  - by rewrite lookup_insert_ne.
Qed.

Lemma foldl_add_resolved_lookup group (ds : list Dataset) flat0 d :
  d ∈ ds → resolves group d →
  foldl (add_resolved group) flat0 ds !! ("/" +:+ path d)
  = store group (array_path group d).
Proof.
  intros Hd [arr Harr].
  induction ds as [|d' ds IH] using rev_ind; [by apply elem_of_nil in Hd|].
  rewrite foldl_app. cbn [foldl]. unfold add_resolved at 1.
  destruct (decide (path d' = path d)) as [Hp|Hp].
  - assert (array_path group d' = array_path group d) as ->
      by (unfold array_path; by rewrite Hp).
    rewrite Harr, Hp. apply lookup_insert_eq.
  - assert (d ∈ ds) as Hin.
    { apply elem_of_app in Hd as [?|Hd]; [done|].
      apply list_elem_of_singleton in Hd. congruence. }
    destruct (store group (array_path group d')); [|by apply IH].
    rewrite lookup_insert_ne; [by apply IH|].
    intros [= ?]. done.
Qed.

Lemma simple_name_labels : simple_name "labels".
Proof. done. Qed.

Lemma from_zarr_eval group multi_meta log flat a0 ms :
  model_validate (attrs group) = Ok multi_meta →
  members_tree_flat group multi_meta = (log, Ok flat) →
  from_flat flat = Ok (GroupSpec a0 ms) →
  from_zarr group = (log, Image_new (attrs group) ms).
Proof.
  intros Hattrs Hflat Hfrom. unfold from_zarr, lift.
  rewrite Hattrs, logged_bind_ok. cbn [fst snd].
  rewrite Hflat, logged_bind_ok. cbn [fst snd].
  rewrite Hfrom, logged_bind_ok. cbn [fst snd].
  by rewrite !app_nil_r.
Qed.

Context (group : Group) (multi_meta : ImageAttrs).
Hypothesis Hattrs : model_validate (attrs group) = Ok multi_meta.
Hypothesis Hsimple :
  Forall (λ d, simple_name (path d)) (multiscales multi_meta ≫= datasets).
Hypothesis Hresolves :
  Forall (resolves group) (multiscales multi_meta ≫= datasets).
Hypothesis Hlabels :
  match store group "labels" with
  | Some (ArraySpec _) => False
  | Some (GroupSpec _ _) =>
      Forall (λ d, path d ≠ "labels") (multiscales multi_meta ≫= datasets)
  | None => True
  end.

(** The flat member tree [from_zarr] builds. *)
Definition resolved_flat : gmap string Spec :=
  let flat := foldl (add_resolved group) ∅
                    (multiscales multi_meta ≫= datasets) in
  match store group "labels" with
  | Some node => <["/labels" := node]> flat
  | None => flat
  end.

Lemma members_tree_flat_resolved :
  members_tree_flat group multi_meta
  = ((OpenArray <$> (array_path group
                       <$> multiscales multi_meta ≫= datasets))
     ++ [OpenGroup "labels"], Ok resolved_flat).
Proof.
  unfold members_tree_flat, resolved_flat.
  rewrite resolve_multiscales_datasets, (resolve_datasets_ok _ _ _ Hresolves).
  rewrite logged_bind_ok, resolve_labels_eval. cbn [fst snd].
  by destruct (store group "labels") as [[arr|a ms]|].
Qed.

Lemma resolved_flat_keys k v :
  resolved_flat !! k = Some v → ∃ n, k = "/" +:+ n ∧ simple_name n.
Proof.
  assert (foldl (add_resolved group) ∅ (multiscales multi_meta ≫= datasets)
            !! k = Some v → ∃ n, k = "/" +:+ n ∧ simple_name n) as Hbase.
  { intros [Hk|(d & Hd & -> & _)]%foldl_add_resolved_elem.
    - by rewrite lookup_empty in Hk.
    - exists (path d). split; [done|].
      rewrite Forall_forall in Hsimple. by apply Hsimple. }
  unfold resolved_flat. destruct (store group "labels") as [node|]; [|done].
  destruct (decide ("/labels" = k)) as [<-|Hne].
  - intros _. exists "labels". split; [done | apply simple_name_labels].
  - by rewrite lookup_insert_ne.
Qed.

Lemma resolved_flat_dataset d :
  d ∈ multiscales multi_meta ≫= datasets →
  resolved_flat !! ("/" +:+ path d) = store group (array_path group d).
Proof.
  intros Hd. rewrite Forall_forall in Hresolves.
  pose proof (foldl_add_resolved_lookup group _ ∅ d Hd (Hresolves d Hd))
    as Hbase.
  unfold resolved_flat.
  destruct (store group "labels") as [[arr|a ms]|]; [done| |done].
  rewrite Forall_forall in Hlabels.
  rewrite lookup_insert_ne; [done|]. intros [= Heq].
  by apply (Hlabels d Hd).
Qed.

(** The members [from_flat] gives [from_zarr], and what the validator
    finds for a dataset in the flattened tree of the image. *)
Lemma resolved_members :
  ∃ m, from_flat resolved_flat = Ok (GroupSpec no_attrs (Some m))
       ∧ (∀ n, m !! n = unflatten_leaf <$> resolved_flat !! ("/" +:+ n))
       ∧ ∀ d, d ∈ multiscales multi_meta ≫= datasets →
           Image_to_flat {| attributes := multi_meta; members := Some m |}
             !! ("/" +:+ lstrip "/" (path d))
           = store group (array_path group d).
Proof.
  destruct (from_flat_one_level resolved_flat resolved_flat_keys)
    as (m & Hm & Hlookup).
  exists m. split; [done|]. split; [done|]. intros d Hd.
  pose proof Hresolves as Hres. rewrite Forall_forall in Hres.
  destruct (Hres d Hd) as [arr Harr].
  pose proof Hsimple as Hs. rewrite Forall_forall in Hs.
  rewrite (lstrip_simple _ (Hs d Hd)). unfold Image_to_flat.
  cbn [attributes members]. rewrite to_flat_leaves.
  - rewrite Hlookup, (resolved_flat_dataset d Hd), Harr. done.
  - intros n v. rewrite Hlookup.
    destruct (resolved_flat !! ("/" +:+ n)) as [[arr'|a' ms']|];
      simpl; intros [= <-]; simpl; auto.
Qed.

(** With arrays of the right rank the validator accepts the members, and
    [from_zarr] returns the image made of them. *)
Lemma from_zarr_one_level_image :
  (∀ m d, m ∈ multiscales multi_meta → d ∈ datasets m →
     ∀ arr, store group (array_path group d) = Some (ArraySpec arr) →
       length (shape arr) = length (axes m)) →
  ∃ members,
    from_zarr group
    = ((OpenArray <$> (array_path group
                         <$> multiscales multi_meta ≫= datasets))
       ++ [OpenGroup "labels"],
       Ok {| attributes := multi_meta; members := Some members |})
    ∧ ∀ n, members !! n = unflatten_leaf <$> resolved_flat !! ("/" +:+ n).
Proof.
  intros Hrank. destruct resolved_members as (m & Hfrom & Hm & Hflat).
  exists m. split; [|done].
  rewrite (from_zarr_eval _ _ _ _ _ _ Hattrs members_tree_flat_resolved
             Hfrom).
  f_equal. apply Image_new_ok. exists multi_meta.
  split; [done|]. split; [done|]. intros m0 d Hm0 Hd.
  assert (d ∈ multiscales multi_meta ≫= datasets) as Hin
    by (apply list_elem_of_bind; eauto).
  rewrite Forall_forall in Hresolves.
  destruct (Hresolves d Hin) as [arr Harr].
  exists arr. rewrite (Hflat d Hin). split; [done|]. by eapply Hrank.
Qed.

Lemma resolved_flat_labels node :
  store group "labels" = Some node →
  resolved_flat !! "/labels" = Some node.
Proof.
  intros Hnode. unfold resolved_flat. rewrite Hnode.
  apply lookup_insert_eq.
Qed.

(** X8: when the datasets have single-component paths and all resolve to
    arrays whose rank is the number of axes of their multiscale, and the
    store has at [labels] nothing, or a group while no dataset is called
    [labels], [from_zarr] returns an image: its attributes are the
    validated ones, its members are the arrays under the paths of the
    datasets, the group of the store at [labels] (with its attributes)
    when there is one, and nothing else.  Without a labels group and
    without a dataset called [labels] its [labels] accessor answers
    [None]. *)
Theorem from_zarr_resolves :
  (∀ m d, m ∈ multiscales multi_meta → d ∈ datasets m →
     ∀ arr, store group (array_path group d) = Some (ArraySpec arr) →
       length (shape arr) = length (axes m)) →
  ∃ members,
    from_zarr group
    = ((OpenArray <$> (array_path group
                         <$> multiscales multi_meta ≫= datasets))
       ++ [OpenGroup "labels"],
       Ok {| attributes := multi_meta; members := Some members |})
    ∧ (∀ d, d ∈ multiscales multi_meta ≫= datasets →
         members !! path d = store group (array_path group d))
    ∧ (∀ a ms, store group "labels" = Some (GroupSpec a ms) →
         ∃ sub, members !! "labels" = Some (GroupSpec a sub))
    ∧ (∀ n, is_Some (members !! n) →
         (n = "labels" ∧ is_Some (store group "labels"))
         ∨ ∃ d, d ∈ multiscales multi_meta ≫= datasets ∧ n = path d)
    ∧ (store group "labels" = None →
       Forall (λ d, path d ≠ "labels") (multiscales multi_meta ≫= datasets) →
       Image_labels {| attributes := multi_meta; members := Some members |}
       = Ok None).
Proof.
  intros Hrank.
  destruct (from_zarr_one_level_image Hrank) as (m & Hzarr & Hm).
  exists m.
  assert (∀ n, is_Some (m !! n) →
            (n = "labels" ∧ is_Some (store group "labels"))
            ∨ ∃ d, d ∈ multiscales multi_meta ≫= datasets ∧ n = path d)
    as Hdom.
  { intros n. rewrite Hm. intros [v Hv].
    destruct (resolved_flat !! ("/" +:+ n)) as [v'|] eqn:Hn; [|done].
    unfold resolved_flat in Hn.
    destruct (store group "labels") as [node|] eqn:Hl.
    - destruct (decide (n = "labels")) as [->|Hne].
      + left. eauto.
      + rewrite lookup_insert_ne in Hn
          by (intros Heq; apply Hne; by apply (inj (String.app "/"))).
        apply foldl_add_resolved_elem in Hn as [Hn|(d & ? & Heq & _)];
          [by rewrite lookup_empty in Hn|].
        apply (inj (String.app "/")) in Heq. eauto.
    - apply foldl_add_resolved_elem in Hn as [Hn|(d & ? & Heq & _)];
        [by rewrite lookup_empty in Hn|].
      apply (inj (String.app "/")) in Heq. eauto. }
  split; [|split; [|split; [|split]]].
  - exact Hzarr.
  - intros d Hd. rewrite Hm, (resolved_flat_dataset d Hd).
    rewrite Forall_forall in Hresolves.
    by destruct (Hresolves d Hd) as [arr ->].
  - intros a ms Hnode. exists (Some ∅).
    rewrite Hm. change ("/" +:+ "labels") with "/labels".
    by rewrite (resolved_flat_labels _ Hnode).
  - done.
  - intros Hnone Hnames. unfold Image_labels. simpl.
    destruct (m !! "labels") as [v|] eqn:Hv; [|done].
    destruct (Hdom "labels" ltac:(by rewrite Hv))
      as [[_ [? Hsome]]|(d & Hd & Hp)]; [congruence|].
    rewrite Forall_forall in Hnames. by destruct (Hnames d Hd).
Qed.

(** X9: with single-component paths that all resolve, and a store that
    has at [labels] nothing, or a group while no dataset is called
    [labels], the first dataset, in the order of the metadata, whose array
    has not the rank of its multiscale makes [from_zarr] fail, after the
    labels group was looked for, with the rank-mismatch message of the
    validator.  (An array at [labels] is refused before, by the labels
    lookup.) *)
Theorem from_zarr_rank_mismatch pre n d post arr :
  checks (multiscales multi_meta) = pre ++ (n, d) :: post →
  Forall (λ c, ∃ arr', store group (array_path group c.2)
                       = Some (ArraySpec arr')
               ∧ length (shape arr') = c.1) pre →
  store group (array_path group d) = Some (ArraySpec arr) →
  length (shape arr) ≠ n →
  from_zarr group
  = ((OpenArray <$> (array_path group
                       <$> multiscales multi_meta ≫= datasets))
     ++ [OpenGroup "labels"],
     Raise (ValidationError
              [msg_rank_mismatch n (path d) (length (shape arr))])).
Proof.
  intros Hchecks Hpre Harr Hrank.
  destruct resolved_members as (m & Hfrom & Hm & Hflat).
  assert (∀ n' d', (n', d') ∈ checks (multiscales multi_meta) →
            d' ∈ multiscales multi_meta ≫= datasets) as Hin.
  { intros n' d' (m0 & ? & ? & _)%elem_of_checks.
    apply list_elem_of_bind. eauto. }
  rewrite (from_zarr_eval _ _ _ _ _ _ Hattrs members_tree_flat_resolved
             Hfrom).
  f_equal. unfold Image_new. rewrite Hattrs. simpl.
  unfold _check_arrays_compatible. rewrite check_multiscales_checks.
  simpl. rewrite Hchecks.
  rewrite (for_each_first_failure _ pre _ post
             (ValueError (msg_rank_mismatch n (path d)
                            (length (shape arr))))); [done| |].
  - rewrite Forall_forall in Hpre. apply Forall_forall.
    intros [n' d'] Hc. destruct (Hpre _ Hc) as (arr' & Harr' & Hlen).
    apply check_dataset_ok. exists arr'. split; [|done].
    rewrite Hflat; [done|]. apply (Hin n').
    rewrite Hchecks. apply elem_of_app. by left.
  - simpl. unfold check_dataset. rewrite Hflat.
    + rewrite Harr. by rewrite decide_True.
    + apply (Hin n). rewrite Hchecks. apply elem_of_app. right. by left.
Qed.

End from_zarr_one_level.

(** ** [Image.from_zarr]: where the labels come from *)
Section labels_of_store_root.
Import image.

(** C9: when all datasets resolve, [from_zarr] has opened each dataset at
    the path of the group, [/], and the path of the dataset, and then the
    group at the fixed path [labels]; no other group is ever opened.  The
    group the store holds at [labels] is what is put at [/labels] in the
    flat member tree, and the member [labels] of every image that is
    returned carries its attributes.  Such an image is returned: with
    datasets of single-component paths, none called [labels], whose arrays
    have the rank of their multiscale, [from_zarr] succeeds and the member
    [labels] of its image is the labels group of the store root, wherever
    in the store the image group is. *)
Theorem from_zarr_labels_from_store_root group multi_meta :
  model_validate (attrs group) = Ok multi_meta →
  Forall (resolves group) (multiscales multi_meta ≫= datasets) →
  (from_zarr group).1
  = (OpenArray <$> ((λ d, group_path group +:+ "/" +:+ path d)
                      <$> (multiscales multi_meta ≫= datasets)))
    ++ [OpenGroup "labels"]
  ∧ (∀ p, OpenGroup p ∈ (from_zarr group).1 → p = "labels")
  ∧ ∀ a ms, store group "labels" = Some (GroupSpec a ms) →
      (∃ flat, (members_tree_flat group multi_meta).2 = Ok flat
               ∧ flat !! "/labels" = Some (GroupSpec a ms))
      ∧ (∀ img, (from_zarr group).2 = Ok img →
           ∃ m sub, members img = Some m
                    ∧ m !! "labels" = Some (GroupSpec a sub))
      ∧ (Forall (λ d, simple_name (path d))
                (multiscales multi_meta ≫= datasets) →
         Forall (λ d, path d ≠ "labels")
                (multiscales multi_meta ≫= datasets) →
         (∀ m d, m ∈ multiscales multi_meta → d ∈ datasets m →
            ∀ arr, store group (group_path group +:+ "/" +:+ path d)
                   = Some (ArraySpec arr) →
              length (shape arr) = length (axes m)) →
         ∃ m sub,
           (from_zarr group).2
           = Ok {| attributes := multi_meta; members := Some m |}
           ∧ m !! "labels" = Some (GroupSpec a sub)).
Proof.
  intros Hattrs Hds.
  destruct (from_zarr_labels_lookup group multi_meta Hattrs Hds)
    as (Hlog & Hopen & Hlabels).
  split; [done|]. split; [done|]. intros a ms Hnode.
  destruct (Hlabels a ms Hnode) as [Hflat Hmember].
  split; [done|]. split; [done|]. intros Hsimple Hnames Hrank.
  assert (match store group "labels" with
          | Some (ArraySpec _) => False
          | Some (GroupSpec _ _) =>
              Forall (λ d, path d ≠ "labels")
                     (multiscales multi_meta ≫= datasets)
          | None => True
          end) as Hroot by (by rewrite Hnode).
  destruct (from_zarr_one_level_image group multi_meta Hattrs Hsimple Hds
              Hroot Hrank) as (m & Hzarr & Hm).
  exists m, (Some ∅). rewrite Hzarr. split; [done|].
  rewrite Hm. change ("/" +:+ "labels") with "/labels".
  by rewrite (resolved_flat_labels group multi_meta _ Hnode).
Qed.

End labels_of_store_root.

(** ** Stores with well-formed images *)
Section resolved_stores.
Import image.

Definition two_levels_meta : ImageAttrs :=
  {| multiscales :=
       [ {| axes := yx;
            datasets := [ {| path := "s0" |}; {| path := "s1" |} ] |} ] |}.

Lemma nested_image_simple :
  Forall (λ d, simple_name (path d))
         (multiscales two_levels_meta ≫= datasets).
Proof. repeat constructor; done. Qed.

Lemma nested_image_resolves :
  Forall (resolves nested_image) (multiscales two_levels_meta ≫= datasets).
Proof. repeat constructor; eexists; by vm_compute. Qed.

Lemma nested_image_labels_group :
  match store nested_image "labels" with
  | Some (ArraySpec _) => False
  | Some (GroupSpec _ _) =>
      Forall (λ d, path d ≠ "labels")
             (multiscales two_levels_meta ≫= datasets)
  | None => True
  end.
Proof.
  replace (store nested_image "labels")
    with (Some (labels_group ["of_the_store_root"])) by (by vm_compute).
  repeat constructor; done.
Qed.

Lemma nested_image_ranks m d :
  m ∈ multiscales two_levels_meta → d ∈ datasets m →
  ∀ arr, store nested_image (group_path nested_image +:+ "/" +:+ path d)
         = Some (ArraySpec arr) →
    length (shape arr) = length (axes m).
Proof.
  intros Hm Hd arr Harr.
  apply list_elem_of_singleton in Hm as ->.
  apply elem_of_cons in Hd as [->|Hd];
    [|apply list_elem_of_singleton in Hd as ->];
    vm_compute in Harr; by injection Harr as <-.
Qed.

Lemma from_zarr_resolves_witness :
  ∃ members,
    from_zarr nested_image
    = ([OpenArray "img/s0"; OpenArray "img/s1"; OpenGroup "labels"],
       Ok {| attributes := two_levels_meta; members := Some members |})
    ∧ members !! "s0" = Some (level 10)
    ∧ members !! "s1" = Some (level 5)
    ∧ ∃ sub, members !! "labels"
             = Some (GroupSpec {| attr_multiscales := None;
                                  attr_labels := Some ["of_the_store_root"] |}
                               sub).
Proof.
  destruct (from_zarr_resolves nested_image two_levels_meta eq_refl
              nested_image_simple nested_image_resolves
              nested_image_labels_group nested_image_ranks)
    as (members & Hfrom & Hdatasets & Hlabels & _).
  exists members. split; [exact Hfrom|]. split; [|split].
  - etrans; [exact (Hdatasets {| path := "s0" |} ltac:(by left))|].
    by vm_compute.
  - etrans;
      [exact (Hdatasets {| path := "s1" |} ltac:(right; by left))|].
    by vm_compute.
  - apply (Hlabels _ (Some ∅)). by vm_compute.
Defined.

Lemma from_zarr_labels_from_store_root_witness :
  (from_zarr nested_image).1
  = [OpenArray "img/s0"; OpenArray "img/s1"; OpenGroup "labels"]
  ∧ store nested_image "img/labels" = Some (labels_group ["of_the_image"])
  ∧ ∃ m sub,
      (from_zarr nested_image).2
      = Ok {| attributes := two_levels_meta; members := Some m |}
      ∧ m !! "labels"
        = Some (GroupSpec {| attr_multiscales := None;
                             attr_labels := Some ["of_the_store_root"] |}
                          sub).
Proof.
  destruct (from_zarr_labels_from_store_root nested_image two_levels_meta
              eq_refl nested_image_resolves)
    as (Hlog & _ & Hlabels).
  split; [exact Hlog|]. split; [by vm_compute|].
  destruct (Hlabels {| attr_multiscales := None;
                       attr_labels := Some ["of_the_store_root"] |}
                    (Some ∅)) as (_ & _ & Hreturned); [by vm_compute|].
  apply Hreturned.
  - exact nested_image_simple.
  - repeat constructor; done.
  - exact nested_image_ranks.
Defined.

(** An image group whose second level has three dimensions under two
    axes. *)
Definition wrong_rank_image : Group :=
  {| store := store_of_map
       (<["img/s0" := level 10]>
          {[ "img/s1" := ArraySpec {| shape := [1; 5; 5];
                                       chunks := [1; 5; 5];
                                       dtype := "<f8" |} ]});
     group_path := "img";
     attrs := two_levels |}.

Lemma from_zarr_rank_mismatch_witness :
  from_zarr wrong_rank_image
  = ([OpenArray "img/s0"; OpenArray "img/s1"; OpenGroup "labels"],
     Raise (ValidationError
       ["The multiscale metadata has 2 axes which does not match the dimensionality of the array found in this group at s1 (3). The number of axes must match the array dimensionality."])).
Proof.
  refine (from_zarr_rank_mismatch wrong_rank_image two_levels_meta eq_refl
            nested_image_simple _ _
            [(2, {| path := "s0" |})] 2 {| path := "s1" |} []
            {| shape := [1; 5; 5]; chunks := [1; 5; 5]; dtype := "<f8" |}
            eq_refl _ _ _).
  - repeat constructor; eexists; by vm_compute.
  - by replace (store wrong_rank_image "labels") with (@None Spec)
      by (by vm_compute).
  - repeat constructor. eexists. split; [by vm_compute | done].
  - by vm_compute.
  - simpl. lia.
Defined.

(** X10: the [labels] accessor of an image that [from_zarr] returned from
    a store with a group at [labels]: with a [labels] attribute on that
    group the accessor answers the labels with the names of that
    attribute; without it, it raises a [ValidationError]. *)
Theorem from_zarr_labels_accessor group log img a ms :
  from_zarr group = (log, Ok img) →
  store group "labels" = Some (GroupSpec a ms) →
  match attr_labels a with
  | Some names =>
      ∃ sub, Image_labels img
             = Ok (Some {| labels.attributes := {| labels.labels := names |};
                           labels.members := sub |})
  | None => ∃ errors, Image_labels img = Raise (ValidationError errors)
  end.
Proof.
  intros Hfrom Hlabels.
  assert (∃ m sub, members img = Some m
                   ∧ m !! "labels" = Some (GroupSpec a sub))
    as (m & sub & Hm & Hsub).
  { revert Hfrom. unfold from_zarr, members_tree_flat, lift.
    destruct (model_validate (attrs group)) as [multi_meta|]; [|done].
    rewrite logged_bind_ok. cbn [fst snd].
    rewrite resolve_multiscales_datasets.
    destruct (for_fold _ _ _) as [l1 [flat|]]; [|done].
    rewrite logged_bind_ok, resolve_labels_eval, Hlabels. cbn [fst snd].
    rewrite logged_bind_ok. cbn [fst snd].
    destruct (from_flat _) as [[arr'|a' ms']|] eqn:Hflat; [done| |done].
    rewrite logged_bind_ok. cbn [fst snd].
    destruct (Image_new (attrs group) ms') as [img'|] eqn:Hnew; [|done].
    intros [= _ <-].
    apply Image_new_ok in Hnew as (attrs' & _ & -> & _). simpl.
    eapply (from_flat_member _ "labels"); [done| |exact Hflat].
    apply lookup_insert_eq. }
  unfold Image_labels. rewrite Hm, Hsub. unfold labels.Labels_new.
  destruct (attr_labels a) as [names|]; simpl; eauto.
Qed.

Lemma from_zarr_labels_accessor_witness :
  ∃ sub,
    (img ← (from_zarr nested_image).2; Image_labels img)
    = Ok (Some {| labels.attributes :=
                    {| labels.labels := ["of_the_store_root"] |};
                  labels.members := sub |}).
Proof.
  destruct (from_zarr nested_image) as [log [img|e]] eqn:Hfrom.
  - destruct (from_zarr_labels_accessor nested_image log img
                {| attr_multiscales := None;
                   attr_labels := Some ["of_the_store_root"] |}
                (Some ∅) Hfrom) as [sub Hsub]; [by vm_compute|].
    exists sub. exact Hsub.
  - exfalso. vm_compute in Hfrom. discriminate Hfrom.
Defined.

End resolved_stores.

(** ** [get_acquisition_paths]: wells put together *)
Section acquisition_append.
Import well_types.

Lemma paths_of_acquisition_app a (l1 l2 : list WellImage) :
  paths_of_acquisition a (l1 ++ l2)
  = paths_of_acquisition a l1 ++ paths_of_acquisition a l2.
Proof. unfold paths_of_acquisition. by rewrite filter_app, fmap_app. Qed.

(** X11: the acquisition paths of a well whose images are those of one
    well followed by those of another are, for every acquisition id, the
    paths of the first followed by the paths of the second; when one of
    the two wells has an image without acquisition id, so has the well put
    together, and it fails as well. *)
Theorem get_acquisition_paths_app (l1 l2 : list WellImage) v :
  match get_acquisition_paths {| images := l1; version := v |},
        get_acquisition_paths {| images := l2; version := v |} with
  | Ok m1, Ok m2 =>
      get_acquisition_paths {| images := l1 ++ l2; version := v |}
      = Ok (union_with (λ p1 p2, Some (p1 ++ p2)) m1 m2)
  | _, _ =>
      get_acquisition_paths {| images := l1 ++ l2; version := v |}
      = Raise (ValueError msg_no_acquisition)
  end.
Proof.
  unfold get_acquisition_paths. simpl.
  pose proof (add_image_loop l1 ∅) as H1.
  pose proof (add_image_loop l2 ∅) as H2.
  pose proof (add_image_loop (l1 ++ l2) ∅) as H12.
  assert (∀ (l : list WellImage),
            Forall (λ i, is_Some (acquisition i)) l →
            Exists (λ i, acquisition i = None) l → False) as Hno.
  { intros l Hall Hex. apply Exists_exists in Hex as (i & Hi & Hnone).
    rewrite Forall_forall in Hall. destruct (Hall i Hi) as [? ?].
    congruence. }
  destruct (for_fold add_image (l1 ++ l2) ∅) as [m12|e12].
  - destruct H12 as [[Hall1 Hall2]%Forall_app Hm12].
    destruct (for_fold add_image l1 ∅) as [m1|e1];
      [|destruct H1 as [_ Hex]; destruct (Hno _ Hall1 Hex)].
    destruct (for_fold add_image l2 ∅) as [m2|e2];
      [|destruct H2 as [_ Hex]; destruct (Hno _ Hall2 Hex)].
    f_equal. apply map_eq. intros a.
    destruct H1 as [_ Hm1]. destruct H2 as [_ Hm2].
    rewrite lookup_union_with, Hm12, Hm1, Hm2, !lookup_empty.
    unfold grouped. rewrite paths_of_acquisition_app.
    destruct (paths_of_acquisition a l1), (paths_of_acquisition a l2);
      simpl; by rewrite ?app_nil_r.
  - destruct H12 as [-> Hex].
    destruct (for_fold add_image l1 ∅) as [m1|e1]; [|done].
    destruct (for_fold add_image l2 ∅) as [m2|e2]; [|done].
    destruct H1 as [Hall1 _]. destruct H2 as [Hall2 _].
    destruct (Hno (l1 ++ l2)); [by apply Forall_app | done].
Qed.

End acquisition_append.
